(** * lightsworkshop: the light-colour wheel and the intensity slider of [main.js]

    A shallow embedding of the control logic of [src/main.js]: the
    angle-to-colour table of [setLightAndUIFromAngle], the placement of the
    circular slider by [positionSlider], the timer and the mouse handlers of
    [initColorControl], the [oninput] handler of [initIntensityControl], and
    [main], which wires them.

    JavaScript numbers are modelled as the real numbers extended with [NaN]:
    the arithmetic of the program is carried out exactly, and the rounding
    of IEEE doubles is not part of this model.  A value computed with
    rounding can differ from the exact one in its last bits, and a pixel
    computed by [Math.round] by one where the exact coordinate is a half
    (27 sin 30 degrees).  Where the rounding decides a property of the
    timer, the timer is modelled a second time on doubles, in the module
    [Double].  Texts are strings of ASCII characters. *)

From Stdlib Require PrimFloat.
From Stdlib Require Import Reals Lra Lia ZArith List String Ascii Bool.
Import ListNotations.

Local Open Scope R_scope.

(** ** The fragment of JavaScript the program uses *)

Module JS.

(** A JavaScript number: a real, or [NaN]. *)
Inductive number : Type :=
| NaN : number
| Num : R -> number.

(** [a + b] and [a * b]: [NaN] is absorbing. *)
Definition add (a b : number) : number :=
  match a, b with
  | Num x, Num y => Num (x + y)
  | _, _ => NaN
  end.

Definition mul (a b : number) : number :=
  match a, b with
  | Num x, Num y => Num (x * y)
  | _, _ => NaN
  end.

(** [a !== b] on numbers: [NaN] is different from everything, itself
    included. *)
Definition strict_neq (a b : number) : bool :=
  match a, b with
  | Num x, Num y => if Req_dec_T x y then false else true
  | _, _ => true
  end.

(** [x < y] and [x <= y] as the conditions of an [if]. *)
Definition ltb (x y : R) : bool := if Rlt_dec x y then true else false.
Definition leb (x y : R) : bool := if Rle_dec x y then true else false.

(** [Math.floor], [Math.ceil], [Math.round] (halves go up) and the
    truncation towards zero that [%] uses. *)
Definition floor (x : R) : Z := Int_part x.
Definition ceil (x : R) : Z := (- Int_part (- x))%Z.
Definition round (x : R) : Z := floor (x + / 2).
Definition trunc (x : R) : Z := if Rle_dec 0 x then floor x else ceil x.

(** [x % y]: the remainder has the sign of the dividend. *)
Definition rem (x y : R) : R := x - y * IZR (trunc (x / y)).

(** [Math.atan2(y, x)]: the angle of the point [(x, y)], in (-PI, PI]. *)
Definition atan2 (y x : R) : R :=
  if Rlt_dec 0 x then atan (y / x)
  else if Rlt_dec x 0 then
    (if Rle_dec 0 y then atan (y / x) + PI else atan (y / x) - PI)
  else
    (if Rlt_dec 0 y then PI / 2 else if Rlt_dec y 0 then - (PI / 2) else 0).

(** *** [parseInt(s, 10)] *)

(** White space that [parseInt] skips (the ASCII part of it). *)
Definition is_space (c : ascii) : bool :=
  let n := nat_of_ascii c in
  (Nat.eqb n 9 || Nat.eqb n 10 || Nat.eqb n 11 || Nat.eqb n 12
   || Nat.eqb n 13 || Nat.eqb n 32)%bool.

Definition digit_of (c : ascii) : option Z :=
  let n := nat_of_ascii c in
  if (Nat.leb 48 n && Nat.leb n 57)%bool then Some (Z.of_nat (n - 48)) else None.

Fixpoint skip_spaces (s : string) : string :=
  match s with
  | String c rest => if is_space c then skip_spaces rest else s
  | EmptyString => EmptyString
  end.

(** The value of the longest prefix of decimal digits, [None] when there
    is no digit at all. *)
Fixpoint digits (acc : option Z) (s : string) : option Z :=
  match s with
  | String c rest =>
      match digit_of c with
      | Some d =>
          digits (Some (10 * match acc with Some a => a | None => 0 end + d)%Z) rest
      | None => acc
      end
  | EmptyString => acc
  end.

Definition parseIntZ (s : string) : option Z :=
  match skip_spaces s with
  | String "-"%char rest => option_map Z.opp (digits None rest)
  | String "+"%char rest => digits None rest
  | t => digits None t
  end.

Definition parseInt (s : string) : number :=
  match parseIntZ s with
  | Some z => Num (IZR z)
  | None => NaN
  end.

End JS.

Import JS.

(** ** The program *)

Definition ORBIT_RADIUS : R := 27.

(** What [setLightAndUIFromAngle] derives from the angle: the light colour
    [colorHex], the CSS colour of the circle [cssColor] and the colour of
    its shadow [boxShadowColor]. *)
Record Colors : Type := mkColors {
  colorHex : Z;
  cssColor : string;
  boxShadowColor : string
}.

(** The chain of [if]/[else if] of [setLightAndUIFromAngle]; the three
    variables start as white and a branch overwrites what it assigns. *)
Definition angleColors (deg : R) : Colors :=
  if ltb deg 40 then mkColors 0xFFFFFF "white" "white"
  else if ltb deg 80 then mkColors 0xadd8e6 "lightblue" "lightblue"
  else if ltb deg 120 then mkColors 0xF78787 "red" "red"
  else if ltb deg 160 then mkColors 0x90EE90 "lightgreen" "lightgreen"
  else if ltb deg 200 then mkColors 0xffff00 "yellow" "yellow"
  else if ltb deg 240 then mkColors 0xffa500 "orange" "orange"
  else if ltb deg 280 then mkColors 0xa52a2a "brown" "brown"
  else if ltb deg 320 then mkColors 0xa52a2a "purple" "purple"
  else if leb deg 360 then mkColors 0xcc6699 "#cc6699" "pink"
  else mkColors 0xFFFFFF "white" "white".

(** A [THREE.AmbientLight]: the colour and the intensity it was built with. *)
Record AmbientLight : Type := mkLight {
  color : Z;
  intensity : number
}.

(** What the script writes to the page: the style of [#circle], the value
    of the [angle] input, the place and the rotation of [#slider]. *)
Record UI : Type := mkUI {
  circle_background : string;
  circle_boxShadow : string;
  angle_value : Z;
  slider_left : R;
  slider_top : R;
  slider_rotate : R
}.

(** The page as the script finds it: the offset of [#circle] ([None] when
    the element is missing: jQuery's [offset()] is then [undefined]), the
    size of [#slider], whether an element with id [lightintesity] exists,
    and the styles before the script touches them. *)
Record Page : Type := mkPage {
  circle_offset : option (R * R);
  slider_width : R;
  slider_height : R;
  has_intensity_slider : bool;
  page_ui : UI
}.

(** The state of the running program: the shared variables [lightColor],
    [lightIntensity] and [light] (the ambient light that is in the scene,
    [None] before [initLight]), the variables [deg], [mdown] and [elPos]
    captured by the handlers of [initColorControl], the size of [#slider],
    whether [intensitySlider.oninput] has been set, and what the script has
    written to the page. *)
Record World : Type := mkWorld {
  lightColor : Z;
  lightIntensity : number;
  light : option AmbientLight;
  deg : R;
  mdown : bool;
  elPos : R * R;
  sliderW : R;
  sliderH : R;
  oninput_wired : bool;
  ui : UI
}.

Definition set_lightColor (w : World) (c : Z) : World :=
  mkWorld c (lightIntensity w) (light w) (deg w) (mdown w) (elPos w)
          (sliderW w) (sliderH w) (oninput_wired w) (ui w).

Definition set_lightIntensity (w : World) (i : number) : World :=
  mkWorld (lightColor w) i (light w) (deg w) (mdown w) (elPos w)
          (sliderW w) (sliderH w) (oninput_wired w) (ui w).

Definition set_light (w : World) (l : option AmbientLight) : World :=
  mkWorld (lightColor w) (lightIntensity w) l (deg w) (mdown w) (elPos w)
          (sliderW w) (sliderH w) (oninput_wired w) (ui w).

Definition set_deg (w : World) (d : R) : World :=
  mkWorld (lightColor w) (lightIntensity w) (light w) d (mdown w) (elPos w)
          (sliderW w) (sliderH w) (oninput_wired w) (ui w).

Definition set_mdown (w : World) (b : bool) : World :=
  mkWorld (lightColor w) (lightIntensity w) (light w) (deg w) b (elPos w)
          (sliderW w) (sliderH w) (oninput_wired w) (ui w).

Definition set_oninput (w : World) (b : bool) : World :=
  mkWorld (lightColor w) (lightIntensity w) (light w) (deg w) (mdown w)
          (elPos w) (sliderW w) (sliderH w) b (ui w).

Definition set_ui (w : World) (u : UI) : World :=
  mkWorld (lightColor w) (lightIntensity w) (light w) (deg w) (mdown w)
          (elPos w) (sliderW w) (sliderH w) (oninput_wired w) u.

(** [initLight] and [updateLight]: the scene holds one ambient light, built
    from the current [lightColor] and [lightIntensity]; [updateLight]
    removes the old one and adds a new one. *)
Definition initLight (w : World) : World :=
  set_light w (Some (mkLight (lightColor w) (lightIntensity w))).

Definition updateLight (w : World) : World :=
  set_light w (Some (mkLight (lightColor w) (lightIntensity w))).

(** [setLightAndUIFromAngle(deg)]. *)
Definition setLightAndUIFromAngle (w : World) (deg : R) : World :=
  let c := angleColors deg in
  let w1 := updateLight (set_lightColor w (colorHex c)) in
  let u := ui w1 in
  set_ui w1
    (mkUI (cssColor c) ("1px 1px 5px 3px " ++ boxShadowColor c)
          (ceil deg) (slider_left u) (slider_top u) (slider_rotate u)).

(** The point of the circle at angle [deg], before rounding: [deg] is
    measured clockwise from the top, and y grows downwards. *)
Definition circleX (deg : R) : R := ORBIT_RADIUS * sin (deg * PI / 180).
Definition circleY (deg : R) : R := ORBIT_RADIUS * - cos (deg * PI / 180).

(** [positionSlider(deg)]: both coordinates are rounded to whole pixels. *)
Definition positionSlider (w : World) (deg : R) : World :=
  let sliderW2 := sliderW w / 2 in
  let sliderH2 := sliderH w / 2 in
  let X := IZR (round (circleX deg)) in
  let Y := IZR (round (circleY deg)) in
  let u := ui w in
  set_ui w
    (mkUI (circle_background u) (circle_boxShadow u) (angle_value u)
          (X + ORBIT_RADIUS - sliderW2) (Y + ORBIT_RADIUS - sliderH2) deg).

(** The angle the [mousemove] handler computes from the pointer at
    [(mx, my)] relative to the top-left corner of the circle. *)
Definition angleFor (mx my : R) : R :=
  let atan := atan2 (mx - ORBIT_RADIUS) (my - ORBIT_RADIUS) in
  rem (- atan / (PI / 180) + 180) 360.

(** The callback of [setInterval]. *)
Definition onTick (w : World) : World :=
  let d := rem (deg w + 1) 360 in
  let w1 := set_deg w d in
  setLightAndUIFromAngle (positionSlider w1 d) d.

(** The four mouse handlers of [#circle]. *)
Definition onMouseDown (w : World) : World := set_mdown w true.
Definition onMouseUp (w : World) : World := set_mdown w false.
Definition onMouseLeave (w : World) : World := set_mdown w false.

Definition onMouseMove (w : World) (clientX clientY : R) : World :=
  if mdown w then
    let mx := clientX - fst (elPos w) in
    let my := clientY - snd (elPos w) in
    let d := angleFor mx my in
    let w1 := set_deg w d in
    setLightAndUIFromAngle (positionSlider w1 d) d
  else w.

(** The [oninput] handler of the intensity slider; [value] is
    [this.value], the text of the input element. *)
Definition onInput (w : World) (value : string) : World :=
  let sliderValue := parseInt value in
  let newIntensity :=
    if strict_neq sliderValue (Num 1)
    then add (Num 1) (mul sliderValue (Num (1 / 10)))
    else sliderValue in
  updateLight (set_lightIntensity w newIntensity).

(** [initColorControl]: reading [elP.left] throws when [#circle] is
    missing ([None]). *)
Definition initColorControl (pg : Page) (w : World) : option World :=
  match circle_offset pg with
  | None => None
  | Some elP =>
      let w1 :=
        mkWorld (lightColor w) (lightIntensity w) (light w) 0 false elP
                (sliderW w) (sliderH w) (oninput_wired w) (ui w) in
      Some (positionSlider (setLightAndUIFromAngle w1 0) 0)
  end.

(** [initIntensityControl]: the handler is set only when the element
    exists. *)
Definition initIntensityControl (pg : Page) (w : World) : World :=
  if has_intensity_slider pg then set_oninput w true else w.

(** The program before [main] runs: the initial values of the shared
    variables. *)
Definition boot (pg : Page) : World :=
  mkWorld 0xFFFFFF (Num 1) None 0 false (0, 0)
          (slider_width pg) (slider_height pg) false (page_ui pg).

(** [main], without the calls that only build the scene. *)
Definition main (pg : Page) : option World :=
  let w := initLight (boot pg) in
  match initColorControl pg w with
  | None => None
  | Some w1 => Some (initIntensityControl pg w1)
  end.

(** The events the page delivers after [main]. *)
Inductive Event : Type :=
| Tick : Event
| MouseDown : Event
| MouseUp : Event
| MouseLeave : Event
| MouseMove : R -> R -> Event
| Input : string -> Event.

(** An input event on the intensity slider runs the handler if there is
    one. *)
Definition step (w : World) (e : Event) : World :=
  match e with
  | Tick => onTick w
  | MouseDown => onMouseDown w
  | MouseUp => onMouseUp w
  | MouseLeave => onMouseLeave w
  | MouseMove x y => onMouseMove w x y
  | Input v => if oninput_wired w then onInput w v else w
  end.

Definition run (w : World) (es : list Event) : World := fold_left step es w.

(** ** The colour bands as a table *)

(** The bands of the colour wheel in the order of their upper bounds, each
    with the colours it stands for. *)
Definition bands : list (R * Colors) :=
  [ (40,  mkColors 0xFFFFFF "white" "white");
    (80,  mkColors 0xadd8e6 "lightblue" "lightblue");
    (120, mkColors 0xF78787 "red" "red");
    (160, mkColors 0x90EE90 "lightgreen" "lightgreen");
    (200, mkColors 0xffff00 "yellow" "yellow");
    (240, mkColors 0xffa500 "orange" "orange");
    (280, mkColors 0xa52a2a "brown" "brown");
    (320, mkColors 0xa52a2a "purple" "purple");
    (360, mkColors 0xcc6699 "#cc6699" "pink") ].

(** The colours of the first band whose upper bound is strictly greater
    than [d]. *)
Fixpoint first_above (d : R) (bs : list (R * Colors)) : option Colors :=
  match bs with
  | [] => None
  | (upper, c) :: rest => if ltb d upper then Some c else first_above d rest
  end.

(** The colours of the last band of a table. *)
Definition last_band (bs : list (R * Colors)) : option Colors :=
  option_map snd (List.last (map Some bs) None).

(** The bands with both their bounds: each one begins where the one before
    it ends, the first one at [lo]. *)
Fixpoint ranges (lo : R) (bs : list (R * Colors)) : list (R * R * Colors) :=
  match bs with
  | [] => []
  | (upper, c) :: rest => (lo, upper, c) :: ranges upper rest
  end.

(** The edge policy in the wording "a value exactly at a boundary belongs
    to the lower band": at the upper bound [b] of a band, the mapping
    returns the colours of that band. *)
Definition boundary_in_lower_band (b : R) : Prop :=
  forall c, In (b, c) bands -> angleColors b = c.

(** The light colours of the bands. *)
Definition band_colors : list Z := map (fun b => colorHex (snd b)) bands.

(** ** The slider seen by the pointer *)

(** The centre of [#slider] relative to the top-left corner of [#circle],
    in which the slider is placed by [left] and [top]. *)
Definition sliderCenter (w : World) : R * R :=
  (slider_left (ui w) + sliderW w / 2, slider_top (ui w) + sliderH w / 2).

(** The angle the [mousemove] handler computes for a pointer at the centre
    of the slider. *)
Definition angleOfSlider (w : World) : R :=
  angleFor (fst (sliderCenter w)) (snd (sliderCenter w)).

(** ** Predicates on the state *)

(** [i >= 0] for a JavaScript number: false for [NaN]. *)
Definition nonneg (i : number) : Prop :=
  match i with
  | Num r => 0 <= r
  | NaN => False
  end.

(** The invariant of the light state. *)
Definition light_ok (w : World) : Prop :=
  In (lightColor w) band_colors /\ nonneg (lightIntensity w).

(** The text [v] of an input event parses to an integer that is at
    least [-10]; events other than inputs are unconstrained. *)
Definition input_at_least_minus_10 (e : Event) : Prop :=
  match e with
  | Input v => exists z : Z, parseIntZ v = Some z /\ (-10 <= z)%Z
  | _ => True
  end.

(** Wrapping once at 360: what [% 360] does to a number in [0, 720). *)
Definition wrap (t : R) : R := if Rlt_dec t 360 then t else t - 360.

(** ** A concrete page *)

(** A page with the circle at (100, 50), a slider of 10 by 10 pixels and
    the intensity slider present. *)
Definition blank_ui : UI := mkUI EmptyString EmptyString 0 0 0 0.

Definition sample_page : Page := mkPage (Some (100, 50)) 10 10 true blank_ui.

(** The same page without the intensity slider. *)
Definition sample_page_no_slider : Page :=
  mkPage (Some (100, 50)) 10 10 false blank_ui.

(** ** The state in step with the angle *)

(** Everything [setLightAndUIFromAngle] and [positionSlider] derive from
    the angle is the one derived from the current [deg]. *)
Definition in_sync (w : World) : Prop :=
  lightColor w = colorHex (angleColors (deg w)) /\
  circle_background (ui w) = cssColor (angleColors (deg w)) /\
  circle_boxShadow (ui w)
  = ("1px 1px 5px 3px " ++ boxShadowColor (angleColors (deg w)))%string /\
  angle_value (ui w) = ceil (deg w) /\
  slider_rotate (ui w) = deg w /\
  slider_left (ui w)
  = IZR (round (circleX (deg w))) + ORBIT_RADIUS - sliderW w / 2 /\
  slider_top (ui w)
  = IZR (round (circleY (deg w))) + ORBIT_RADIUS - sliderH w / 2.

(** The events that are not inputs of the intensity slider. *)
Definition not_input (e : Event) : Prop :=
  match e with
  | Input _ => False
  | _ => True
  end.

(** A text made of decimal digits only, and a text that does not begin
    with a digit. *)
Fixpoint all_digits (s : string) : bool :=
  match s with
  | EmptyString => true
  | String c rest =>
      match digit_of c with
      | Some _ => all_digits rest
      | None => false
      end
  end.

Definition no_leading_digit (s : string) : bool :=
  match s with
  | EmptyString => true
  | String c _ =>
      match digit_of c with
      | Some _ => false
      | None => true
      end
  end.

(** ** The scene graph *)

(** The objects the script puts into the scene, each with the identity
    it is created with. *)
Inductive Kind : Type :=
| PlaneMesh : Kind
| CubeMesh : Kind
| SphereMesh : Kind
| Ambient : AmbientLight -> Kind.

Record Object3D : Type := mkObject {
  oid : nat;
  kind : Kind
}.

(** The children of [scene], the object the variable [light] refers to,
    and the identity the next [new] object gets. *)
Record Scene : Type := mkScene {
  children : list Object3D;
  lightRef : option nat;
  nextId : nat
}.

(** [scene.add(o)] for an object that has no parent yet. *)
Definition scene_add (o : Object3D) (cs : list Object3D) : list Object3D :=
  cs ++ [o].

(** [scene.remove(o)]: the first child that is the object [id] is taken
    out; nothing happens when there is none. *)
Fixpoint scene_remove (id : nat) (cs : list Object3D) : list Object3D :=
  match cs with
  | [] => []
  | o :: rest => if Nat.eqb (oid o) id then rest else o :: scene_remove id rest
  end.

(** The scene [initThree] creates. *)
Definition empty_scene : Scene := mkScene [] None 0.

(** [createPlane], [createCube] and [createSphere]: the cube is built and
    not added. *)
Definition createPlane (g : Scene) : Scene :=
  mkScene (scene_add (mkObject (nextId g) PlaneMesh) (children g))
          (lightRef g) (S (nextId g)).

Definition createCube (g : Scene) : Scene :=
  mkScene (children g) (lightRef g) (S (nextId g)).

Definition createSphere (g : Scene) : Scene :=
  mkScene (scene_add (mkObject (nextId g) SphereMesh) (children g))
          (lightRef g) (S (nextId g)).

(** The scene side of [initLight] and of [updateLight], in a program
    whose shared variables are those of [w]. *)
Definition initLight_scene (w : World) (g : Scene) : Scene :=
  let l := mkObject (nextId g)
                    (Ambient (mkLight (lightColor w) (lightIntensity w))) in
  mkScene (scene_add l (children g)) (Some (nextId g)) (S (nextId g)).

Definition updateLight_scene (w : World) (g : Scene) : Scene :=
  let removed :=
    match lightRef g with
    | Some id => scene_remove id (children g)
    | None => children g
    end in
  let l := mkObject (nextId g)
                    (Ambient (mkLight (lightColor w) (lightIntensity w))) in
  mkScene (scene_add l removed) (Some (nextId g)) (S (nextId g)).

(** [main] with the scene: the plane, the sphere, the light of
    [initLight], and the rebuild of the light by the call of
    [setLightAndUIFromAngle] in [initColorControl]. *)
Definition main_scene (pg : Page) : option (World * Scene) :=
  let g := initLight_scene (boot pg) (createSphere (createPlane empty_scene)) in
  match main pg with
  | None => None
  | Some w => Some (w, updateLight_scene w g)
  end.

(** Whether the handler of an event reaches [updateLight]. *)
Definition rebuilds (w : World) (e : Event) : bool :=
  match e with
  | Tick => true
  | MouseMove _ _ => mdown w
  | Input _ => oninput_wired w
  | _ => false
  end.

Definition step_scene (s : World * Scene) (e : Event) : World * Scene :=
  let w' := step (fst s) e in
  (w', if rebuilds (fst s) e then updateLight_scene w' (snd s) else snd s).

Definition run_scene (s : World * Scene) (es : list Event) : World * Scene :=
  fold_left step_scene es s.

(** The number of events of a run that rebuild the light. *)
Fixpoint count_rebuilds (w : World) (es : list Event) : nat :=
  match es with
  | [] => 0
  | e :: rest =>
      (if rebuilds w e then 1 else 0) + count_rebuilds (step w e) rest
  end.

(** ** The render loop *)

(** The result of a division of integers in JavaScript: a real, an
    infinity when a number other than zero is divided by zero, [NaN] for
    0 / 0. *)
Inductive quotient : Type :=
| Quot : R -> quotient
| Infinity : bool -> quotient
| QNaN : quotient.

Definition divide (a b : Z) : quotient :=
  if Z.eqb b 0 then
    (if Z.eqb a 0 then QNaN else Infinity (Z.ltb 0 a))
  else Quot (IZR a / IZR b).

(** The canvas: the size of its drawing buffer and the size it is
    displayed at. *)
Record Canvas : Type := mkCanvas {
  width : Z;
  height : Z;
  clientWidth : Z;
  clientHeight : Z
}.

(** What the render loop works on: the canvas of the renderer and the
    aspect of the camera. *)
Record View : Type := mkView {
  domElement : Canvas;
  aspect : quotient
}.

(** [renderer.setSize(w, h, false)] with the pixel ratio 1 the renderer
    starts with: the drawing buffer gets the size, the style is left
    alone. *)
Definition setSize (c : Canvas) (w h : Z) : Canvas :=
  mkCanvas w h (clientWidth c) (clientHeight c).

(** [resizeRendererToDisplaySize]: the canvas afterwards and the value
    returned. *)
Definition resizeRendererToDisplaySize (c : Canvas) : Canvas * bool :=
  let needResize :=
    (negb (Z.eqb (width c) (clientWidth c))
     || negb (Z.eqb (height c) (clientHeight c)))%bool in
  (if needResize then setSize c (clientWidth c) (clientHeight c) else c,
   needResize).

(** One frame of [render]. *)
Definition render (v : View) : View :=
  let (c, resized) := resizeRendererToDisplaySize (domElement v) in
  if resized
  then mkView c (divide (clientWidth c) (clientHeight c))
  else mkView c (aspect v).

(** The view [initThree] sets up on a canvas: the camera has the
    aspect 2. *)
Definition initView (c : Canvas) : View := mkView c (Quot 2).

(** ** What the handler makes of a text *)

(** A text of ASCII characters. *)
Fixpoint is_ascii_text (s : string) : bool :=
  match s with
  | EmptyString => true
  | String c rest => (Nat.ltb (nat_of_ascii c) 128 && is_ascii_text rest)%bool
  end.

(** A text in which no number can be read: after the leading white space
    and one optional sign it is empty or goes on with a character that is
    not a decimal digit. *)
Definition no_leading_number (s : string) : bool :=
  match skip_spaces s with
  | String "-"%char rest => no_leading_digit rest
  | String "+"%char rest => no_leading_digit rest
  | t => no_leading_digit t
  end.

(** The events other than a move of the pointer. *)
Definition not_move (e : Event) : Prop :=
  match e with
  | MouseMove _ _ => False
  | _ => True
  end.

(** ** The timer in double precision *)

Module Double.

Import PrimFloat.
#[local] Set Warnings "-inexact-float".
Local Open Scope float_scope.

(** [x % 360] on doubles.  The remainder of a division of doubles is a
    double, so [%] does not round: the multiples [360 * 2^k] of 360 are
    taken off from the largest, [360 * 2^1015], down to 360 itself, each
    subtraction being exact; the result has the sign of [x], and it is
    [NaN] for [NaN] and the infinities. *)
Definition top : float := 0x1.68p+1023.

Fixpoint rem_pass (k : nat) (x m : float) : float :=
  let x' := if m <=? x then x - m else x in
  match k with
  | O => x'
  | S k' => rem_pass k' x' (m / 2)
  end.

Definition rem360 (x : float) : float :=
  if (is_nan x || is_infinity x)%bool then nan
  else
    let r := rem_pass 1015 (abs x) top in
    if get_sign x then - r else r.

(** What the callback of [setInterval] does to [deg]: the sum is rounded
    to the nearest double. *)
Definition onTick (deg : float) : float := rem360 (deg + 1).

Fixpoint ticks (n : nat) (deg : float) : float :=
  match n with
  | O => deg
  | S n' => ticks n' (onTick deg)
  end.

(** The double that is the whole number [n]. *)
Fixpoint whole (n : nat) : float :=
  match n with
  | O => 0
  | S n' => whole n' + 1
  end.

(** An angle that is not a whole number, and the angle 360 ticks make of
    it. *)
Definition drag_angle : float := 3.3664606634298195.
Definition drag_angle_after : float := 3.366460663429848.

End Double.

(** ** Proofs *)

(** Decide every comparison of the goal, closing the cases the hypotheses
    exclude. *)
Ltac cmp_cases :=
  unfold ltb, leb;
  repeat match goal with
         | |- context [Rlt_dec ?a ?b] => destruct (Rlt_dec a b); try lra
         | |- context [Rle_dec ?a ?b] => destruct (Rle_dec a b); try lra
         end.

Lemma angleColors_band (d lo hi : R) (c : Colors) :
  In (lo, hi, c) (ranges 0 bands) -> lo <= d < hi -> angleColors d = c.
Proof.
  intros Hin Hd. simpl in Hin.
  repeat (destruct Hin as [Hin | Hin];
          [ injection Hin as <- <- <-; unfold angleColors; cmp_cases; reflexivity | ]).
  contradiction.
Qed.

Lemma angleColors_first_above (d : R) :
  d < 360 -> first_above d bands = Some (angleColors d).
Proof.
  intros Hd. unfold angleColors. simpl. cmp_cases; reflexivity.
Qed.

Lemma angleColors_360 : Some (angleColors 360) = last_band bands.
Proof.
  unfold angleColors, last_band. simpl. cmp_cases; reflexivity.
Qed.

(** *** What the handlers leave alone *)

Lemma setLightAndUIFromAngle_light (w : World) (d : R) :
  lightColor (setLightAndUIFromAngle w d) = colorHex (angleColors d) /\
  lightIntensity (setLightAndUIFromAngle w d) = lightIntensity w /\
  light (setLightAndUIFromAngle w d)
  = Some (mkLight (colorHex (angleColors d)) (lightIntensity w)).
Proof. repeat split. Qed.

Lemma setLightAndUIFromAngle_ui (w : World) (d : R) :
  circle_background (ui (setLightAndUIFromAngle w d)) = cssColor (angleColors d) /\
  circle_boxShadow (ui (setLightAndUIFromAngle w d))
  = ("1px 1px 5px 3px " ++ boxShadowColor (angleColors d))%string.
Proof. split; reflexivity. Qed.

(** *** The colour bands *)

(** C1 (as amended).  For every degree [d] in [0, 360] the mapping is a
    step function over the bands bounded by 40, 80, ..., 360: below 360 it
    returns the colours of the first band whose upper bound is strictly
    greater than [d], at 360 the colours of the last band, and on each
    band, its lower bound included and its upper bound excluded, it is
    constant: a value exactly at one of the bounds 40..320 belongs to the
    band that begins there. *)
Theorem angleColors_step_function (d : R) :
  0 <= d <= 360 ->
  (d < 360 -> first_above d bands = Some (angleColors d)) /\
  (d = 360 -> Some (angleColors d) = last_band bands) /\
  (forall lo hi c,
      In (lo, hi, c) (ranges 0 bands) -> lo <= d < hi -> angleColors d = c) /\
  (forall w, lightColor (setLightAndUIFromAngle w d) = colorHex (angleColors d)).
Proof.
  intros _. split; [ apply angleColors_first_above | ].
  split; [ intros ->; apply angleColors_360 | ].
  split; [ intros lo hi c; apply angleColors_band | reflexivity ].
Qed.

Lemma angleColors_step_function_witness :
  0 <= 40 <= 360 /\
  angleColors 40 = mkColors 0xadd8e6 "lightblue" "lightblue".
Proof.
  assert (H : 0 <= 40 <= 360) by lra.
  split; [ exact H | ].
  destruct (angleColors_step_function 40 H) as (_ & _ & Hband & _).
  apply (Hband 40 80); [ simpl; auto | lra ].
Defined.

(** C1 (as stated) fails at the boundary 40: the value 40 does not get the
    colours of the band that ends at 40 (white), it gets those of the band
    that begins there (light blue). *)
Lemma boundary_40_not_in_lower_band :
  angleColors 40 = mkColors 0xadd8e6 "lightblue" "lightblue" /\
  ~ boundary_in_lower_band 40.
Proof.
  assert (H : angleColors 40 = mkColors 0xadd8e6 "lightblue" "lightblue")
    by (unfold angleColors; cmp_cases; reflexivity).
  split; [ exact H | ].
  intros Hlow.
  specialize (Hlow (mkColors 0xFFFFFF "white" "white") (or_introl eq_refl)).
  rewrite H in Hlow. discriminate Hlow.
Qed.

(** C9.  The band [240, 280) and the band [280, 320) give the light the
    same colour and the circle different CSS colours. *)
Theorem brown_bands_share_light_color (w : World) (d d' : R) :
  240 <= d < 280 -> 280 <= d' < 320 ->
  colorHex (angleColors d) = colorHex (angleColors d') /\
  colorHex (angleColors d) = 0xa52a2a%Z /\
  cssColor (angleColors d) = "brown"%string /\
  cssColor (angleColors d') = "purple"%string /\
  cssColor (angleColors d) <> cssColor (angleColors d') /\
  boxShadowColor (angleColors d) <> boxShadowColor (angleColors d') /\
  lightColor (setLightAndUIFromAngle w d)
  = lightColor (setLightAndUIFromAngle w d') /\
  light (setLightAndUIFromAngle w d) = light (setLightAndUIFromAngle w d') /\
  circle_background (ui (setLightAndUIFromAngle w d))
  <> circle_background (ui (setLightAndUIFromAngle w d')).
Proof.
  intros Hd Hd'.
  assert (E : angleColors d = mkColors 0xa52a2a "brown" "brown")
    by (unfold angleColors; cmp_cases; reflexivity).
  assert (E' : angleColors d' = mkColors 0xa52a2a "purple" "purple")
    by (unfold angleColors; cmp_cases; reflexivity).
  unfold setLightAndUIFromAngle; simpl. rewrite E, E'. simpl.
  repeat split; discriminate.
Qed.

Lemma brown_bands_share_light_color_witness :
  colorHex (angleColors 250) = colorHex (angleColors 300) /\
  cssColor (angleColors 250) <> cssColor (angleColors 300).
Proof.
  assert (H : 240 <= 250 < 280) by lra.
  assert (H' : 280 <= 300 < 320) by lra.
  destruct (brown_bands_share_light_color (boot sample_page) 250 300 H H')
    as (E & _ & _ & _ & N & _).
  split; [ exact E | exact N ].
Defined.

(** C10.  Above 360 no branch fires: the mapping returns the defaults and
    the light becomes white; the mapping is a total function. *)
Theorem above_360_is_white (w : World) (d : R) :
  360 < d ->
  angleColors d = mkColors 0xFFFFFF "white" "white" /\
  lightColor (setLightAndUIFromAngle w d) = 0xFFFFFF%Z /\
  light (setLightAndUIFromAngle w d)
  = Some (mkLight 0xFFFFFF (lightIntensity w)).
Proof.
  intros Hd.
  assert (E : angleColors d = mkColors 0xFFFFFF "white" "white")
    by (unfold angleColors; cmp_cases; reflexivity).
  unfold setLightAndUIFromAngle; simpl. rewrite E. repeat split.
Qed.

Lemma above_360_is_white_witness :
  360 < 400 /\ angleColors 400 = mkColors 0xFFFFFF "white" "white".
Proof.
  assert (H : 360 < 400) by lra.
  split; [ exact H | ].
  exact (proj1 (above_360_is_white (boot sample_page) 400 H)).
Defined.

(** *** The intensity slider *)

Lemma parseInt_Z (s : string) (z : Z) :
  parseIntZ s = Some z -> parseInt s = Num (IZR z).
Proof. unfold parseInt. intros ->. reflexivity. Qed.

Lemma onInput_Z (w : World) (s : string) (z : Z) :
  parseIntZ s = Some z ->
  lightIntensity (onInput w s)
  = Num (if Z.eqb z 1 then 1 else 1 + IZR z * (1 / 10)).
Proof.
  intros H. unfold onInput. rewrite (parseInt_Z s z H). simpl.
  destruct (Req_dec_T (IZR z) 1) as [E | N].
  - apply eq_IZR in E. subst z. reflexivity.
  - destruct (Z.eqb_spec z 1) as [-> | _]; [ now elim N | reflexivity ].
Qed.

Lemma onInput_NaN (w : World) (s : string) :
  parseInt s = NaN ->
  onInput w s
  = set_light (set_lightIntensity w NaN) (Some (mkLight (lightColor w) NaN)).
Proof. intros H. unfold onInput. rewrite H. reflexivity. Qed.

(** C4.  For an input whose text is the integer [v], the intensity becomes
    1 when [v = 1] and [1 + v * 0.1] otherwise, and the light is rebuilt
    with it; the inputs 1, 5 and 10 give 1, 1.5 and 2. *)
Theorem intensity_mapping (w : World) :
  oninput_wired w = true ->
  (forall (v : Z) (s : string),
      parseIntZ s = Some v ->
      lightIntensity (step w (Input s))
      = Num (if Z.eqb v 1 then 1 else 1 + IZR v * (1 / 10)) /\
      light (step w (Input s))
      = Some (mkLight (lightColor w) (lightIntensity (step w (Input s))))) /\
  lightIntensity (step w (Input "1")) = Num 1 /\
  lightIntensity (step w (Input "5")) = Num (3 / 2) /\
  lightIntensity (step w (Input "10")) = Num 2.
Proof.
  intros Hw. simpl. rewrite Hw.
  split; [ intros v s H; split; [ now apply onInput_Z | reflexivity ] | ].
  rewrite (onInput_Z w "1" 1 eq_refl), (onInput_Z w "5" 5 eq_refl),
    (onInput_Z w "10" 10 eq_refl). simpl.
  repeat split; f_equal; lra.
Qed.

Lemma intensity_mapping_witness :
  lightIntensity (step (set_oninput (boot sample_page) true) (Input "7"))
  = Num (1 + 7 * (1 / 10)).
Proof.
  destruct (intensity_mapping (set_oninput (boot sample_page) true) eq_refl)
    as (H & _).
  exact (proj1 (H 7%Z "7"%string eq_refl)).
Defined.

Lemma digits_some (s : string) :
  forall a : Z, exists z : Z, digits (Some a) s = Some z.
Proof.
  induction s as [| c s IH]; intros a; cbn [digits]; [ now exists a | ].
  destruct (digit_of c); [ apply IH | now exists a ].
Qed.

Lemma digits_None (t : string) :
  digits None t = None <-> no_leading_digit t = true.
Proof.
  destruct t as [| c r]; cbn [digits no_leading_digit]; [ tauto | ].
  destruct (digit_of c) as [d |]; [ | tauto ].
  destruct (digits_some r (10 * 0 + d)%Z) as [z ->].
  split; discriminate.
Qed.

(** [parseInt] gives [NaN] exactly for the texts in which no number can
    be read. *)
Lemma parseIntZ_None (s : string) :
  parseIntZ s = None <-> no_leading_number s = true.
Proof.
  unfold parseIntZ, no_leading_number.
  destruct (skip_spaces s) as [| c rest]; [ apply digits_None | ].
  destruct c as [[] [] [] [] [] [] [] []]; cbv beta iota;
    try apply digits_None.
  destruct (digits_None rest) as [H1 H2].
  destruct (digits None rest); simpl; split; intros H;
    first [ discriminate H | now apply H1 | reflexivity
          | (specialize (H2 H); discriminate H2) ].
Qed.

(** C3 (as amended).  An input that is not a number is never rejected.
    For a text of ASCII characters in which no number can be read (after
    the leading white space and an optional sign it is empty or goes on
    with something that is not a digit), [parseInt] gives [NaN], and the
    handler stores [NaN] as the intensity and rebuilds the light with it.
    Any other text, one that goes on after its leading whole number
    included, is taken as that whole number.  In both cases the colour of
    the light and the rest of the state are unchanged, and the handler
    returns. *)
Theorem non_numeric_input_sets_NaN (w : World) (s : string) :
  oninput_wired w = true -> is_ascii_text s = true ->
  (no_leading_number s = true ->
   parseInt s = NaN /\
   step w (Input s)
   = set_light (set_lightIntensity w NaN) (Some (mkLight (lightColor w) NaN)) /\
   lightIntensity (step w (Input s)) = NaN) /\
  (no_leading_number s = false ->
   exists v : Z,
     parseIntZ s = Some v /\
     lightIntensity (step w (Input s))
     = Num (if Z.eqb v 1 then 1 else 1 + IZR v * (1 / 10))) /\
  light (step w (Input s))
  = Some (mkLight (lightColor w) (lightIntensity (step w (Input s)))) /\
  lightColor (step w (Input s)) = lightColor w /\
  deg (step w (Input s)) = deg w /\
  mdown (step w (Input s)) = mdown w /\
  ui (step w (Input s)) = ui w.
Proof.
  intros Hw _. simpl. rewrite Hw.
  split; [ | split; [ | repeat split ] ].
  - intros Hn. apply parseIntZ_None in Hn.
    assert (E : parseInt s = NaN) by (unfold parseInt; now rewrite Hn).
    rewrite (onInput_NaN w s E). repeat split. exact E.
  - intros Hn. destruct (parseIntZ s) as [v |] eqn:Ev.
    + exists v. split; [ reflexivity | now apply onInput_Z ].
    + apply parseIntZ_None in Ev. rewrite Ev in Hn. discriminate Hn.
Qed.

Lemma non_numeric_input_sets_NaN_witness :
  lightIntensity (step (set_oninput (boot sample_page) true) (Input "abc")) = NaN /\
  exists v : Z,
    parseIntZ "12px" = Some v /\
    lightIntensity (step (set_oninput (boot sample_page) true) (Input "12px"))
    = Num (if Z.eqb v 1 then 1 else 1 + IZR v * (1 / 10)).
Proof.
  destruct (non_numeric_input_sets_NaN
              (set_oninput (boot sample_page) true) "abc" eq_refl eq_refl)
    as (H & _).
  destruct (non_numeric_input_sets_NaN
              (set_oninput (boot sample_page) true) "12px" eq_refl eq_refl)
    as (_ & H' & _).
  split; [ exact (proj2 (proj2 (H eq_refl))) | exact (H' eq_refl) ].
Defined.

(** C3 (as stated) fails: after [main] on the sample page the intensity
    is 1, and the input [abc] changes it to [NaN]. *)
Lemma non_numeric_input_changes_state :
  exists w : World,
    main sample_page = Some w /\
    parseInt "abc" = NaN /\
    lightIntensity w = Num 1 /\
    lightIntensity (step w (Input "abc")) = NaN /\
    step w (Input "abc") <> w.
Proof.
  eexists. split; [ reflexivity | ].
  split; [ reflexivity | ]. split; [ reflexivity | ].
  split; [ reflexivity | ].
  intros E. apply (f_equal lightIntensity) in E. discriminate E.
Qed.

(** *** The remainder *)

Lemma floor_unique (r : R) (z : Z) : IZR z <= r < IZR z + 1 -> floor r = z.
Proof.
  intros H. unfold floor. symmetry. apply Int_part_spec. lra.
Qed.

Lemma rem_small (t : R) : 0 <= t < 360 -> rem t 360 = t.
Proof.
  intros H. unfold rem, trunc.
  destruct (Rle_dec 0 (t / 360)) as [_ | N]; [ | exfalso; apply N; lra ].
  rewrite (floor_unique (t / 360) 0) by (simpl; lra). simpl. lra.
Qed.

Lemma rem_wrap (t : R) : 0 <= t < 720 -> rem t 360 = wrap t.
Proof.
  intros H. unfold wrap. destruct (Rlt_dec t 360) as [L | G].
  - apply rem_small. lra.
  - unfold rem, trunc.
    destruct (Rle_dec 0 (t / 360)) as [_ | N]; [ | exfalso; apply N; lra ].
    rewrite (floor_unique (t / 360) 1) by (simpl; lra). simpl. lra.
Qed.

Lemma wrap_range (x : R) : 0 <= x < 360 -> 0 <= wrap (x + 1) < 360.
Proof. intros H. unfold wrap. destruct (Rlt_dec (x + 1) 360); lra. Qed.

(** *** The timer *)

Lemma deg_onTick (w : World) : deg (onTick w) = rem (deg w + 1) 360.
Proof. reflexivity. Qed.

Lemma run_ticks_succ (w : World) (n : nat) :
  run w (repeat Tick (S n)) = run (onTick w) (repeat Tick n).
Proof. reflexivity. Qed.

(** [n] ticks, at most 360 of them, add [n] to the angle and wrap at most
    once. *)
Lemma deg_run_ticks (n : nat) :
  forall w : World,
    0 <= deg w < 360 -> (n <= 360)%nat ->
    deg (run w (repeat Tick n)) = wrap (deg w + INR n).
Proof.
  induction n as [| n IH]; intros w Hw Hn.
  - simpl. unfold wrap. destruct (Rlt_dec (deg w + 0) 360); lra.
  - rewrite run_ticks_succ, IH; [ | | lia ].
    + rewrite deg_onTick, rem_wrap by lra. rewrite S_INR.
      assert (Hle : INR n <= 359).
      { assert (Hn' : (n <= 359)%nat) by lia.
        apply le_INR in Hn'.
        replace (INR 359) with 359 in Hn'
          by (rewrite INR_IZR_INZ; reflexivity).
        exact Hn'. }
      pose proof (pos_INR n) as Hpos.
      unfold wrap.
      destruct (Rlt_dec (deg w + 1) 360);
        destruct (Rlt_dec (deg w + (INR n + 1)) 360);
        cmp_cases.
    + rewrite deg_onTick, rem_wrap by lra. apply wrap_range, Hw.
Qed.

(** *** The range of the angle *)

Lemma atan_nonpos (t : R) : t <= 0 -> atan t <= 0.
Proof.
  intros [L | ->]; [ | rewrite atan_0; lra ].
  pose proof (atan_increasing t 0 L) as H. rewrite atan_0 in H. lra.
Qed.

Lemma atan_pos (t : R) : 0 < t -> 0 < atan t.
Proof.
  intros L. pose proof (atan_increasing 0 t L) as H.
  rewrite atan_0 in H. exact H.
Qed.

Lemma atan2_range (y x : R) : - PI < atan2 y x <= PI.
Proof.
  pose proof PI_RGT_0 as Hpi. unfold atan2.
  destruct (Rlt_dec 0 x) as [Hx | Hx].
  - pose proof (atan_bound (y / x)). lra.
  - destruct (Rlt_dec x 0) as [Hx' | Hx'].
    + pose proof (atan_bound (y / x)) as Hb.
      destruct (Rle_dec 0 y) as [Hy | Hy].
      * assert (Hq : y / x <= 0).
        { pose proof (Rinv_lt_0_compat x Hx'). unfold Rdiv. nra. }
        pose proof (atan_nonpos _ Hq). lra.
      * assert (Hq : 0 < y / x).
        { pose proof (Rinv_lt_0_compat x Hx'). unfold Rdiv. nra. }
        pose proof (atan_pos _ Hq). lra.
    + destruct (Rlt_dec 0 y); [ lra | ]. destruct (Rlt_dec y 0); lra.
Qed.

Lemma angleFor_range (mx my : R) : 0 <= angleFor mx my < 360.
Proof.
  unfold angleFor.
  set (a := atan2 (mx - ORBIT_RADIUS) (my - ORBIT_RADIUS)).
  pose proof (atan2_range (mx - ORBIT_RADIUS) (my - ORBIT_RADIUS)) as Ha.
  fold a in Ha. pose proof PI_RGT_0 as Hpi.
  assert (E : - a / (PI / 180) = 180 * (- a / PI)) by (field; lra).
  assert (Hu : (- a / PI) * PI = - a) by (field; lra).
  assert (B : -1 <= - a / PI < 1) by (split; nra).
  rewrite E, rem_small; lra.
Qed.

Lemma deg_step_range (w : World) (e : Event) :
  0 <= deg w < 360 -> 0 <= deg (step w e) < 360.
Proof.
  intros Hw. destruct e as [ | | | | x y | v ]; simpl; try exact Hw.
  - rewrite rem_wrap by lra. now apply wrap_range.
  - unfold onMouseMove. destruct (mdown w); [ | exact Hw ].
    simpl. apply angleFor_range.
  - destruct (oninput_wired w); exact Hw.
Qed.

Lemma deg_main (pg : Page) (w : World) : main pg = Some w -> deg w = 0.
Proof.
  unfold main, initColorControl. destruct (circle_offset pg); [ | discriminate ].
  intros [= <-]. unfold initIntensityControl.
  destruct (has_intensity_slider pg); reflexivity.
Qed.

Lemma deg_run_range (es : list Event) :
  forall w : World, 0 <= deg w < 360 -> 0 <= deg (run w es) < 360.
Proof.
  induction es as [| e es IH]; intros w Hw; [ exact Hw | ].
  simpl. apply IH, deg_step_range, Hw.
Qed.

Lemma wrap_whole (z : Z) :
  (0 <= z < 360)%Z -> wrap (IZR z + 1) = IZR ((z + 1) mod 360).
Proof.
  intros Hz. unfold wrap.
  assert (Hb : 0 <= IZR z <= 359)
    by (split; [ apply (IZR_le 0) | apply (IZR_le z 359) ]; lia).
  destruct (Rlt_dec (IZR z + 1) 360) as [L | G].
  - rewrite <- plus_IZR. f_equal.
    assert (z < 359)%Z by (apply lt_IZR; lra).
    Z.to_euclidean_division_equations. lia.
  - assert (E : z = 359%Z).
    { assert (358 < z)%Z by (apply lt_IZR; lra). lia. }
    rewrite E. replace (359 + 1 - 360) with (IZR 0) by lra. reflexivity.
Qed.

Lemma forall_below (P : nat -> Prop) (k : nat) :
  Forall P (seq 0 k) -> forall n : nat, (n < k)%nat -> P n.
Proof.
  intros H n Hn. rewrite Forall_forall in H. apply H, in_seq. lia.
Qed.

(** On doubles, a tick takes every whole angle below 360 to the next whole
    angle, and 360 ticks bring it back: sums of whole numbers of this size
    do not round. *)
Lemma double_whole_turn (n : nat) :
  (n < 360)%nat ->
  Double.onTick (Double.whole n) = Double.whole (Nat.modulo (S n) 360) /\
  Double.ticks 360 (Double.whole n) = Double.whole n.
Proof.
  revert n. apply forall_below.
  cbv [seq]. repeat (constructor; [ split; vm_compute; reflexivity | ]).
  constructor.
Qed.

(** C7 (as amended).  A tick of the timer replaces the angle by
    [(deg + 1) % 360], that is by [deg + 1], less 360 when that reaches
    360, so the angle stays in [0, 360); the tick then places the slider,
    sets the colours and rebuilds the light from the new angle, and leaves
    the intensity and the drag state alone.  For a whole angle, which is
    what the timer alone produces, the new angle is the next whole number
    modulo 360, and 360 ticks in a row bring the angle back to where it
    started; on doubles this is so for each of the 360 whole angles. *)
Theorem tick_advances_angle (w : World) :
  0 <= deg w < 360 ->
  deg (step w Tick) = rem (deg w + 1) 360 /\
  deg (step w Tick) = wrap (deg w + 1) /\
  0 <= deg (step w Tick) < 360 /\
  (forall z : Z,
      deg w = IZR z ->
      deg (step w Tick) = IZR ((z + 1) mod 360) /\
      deg (run w (repeat Tick 360)) = deg w) /\
  (forall n : nat,
      (n < 360)%nat ->
      Double.onTick (Double.whole n) = Double.whole (Nat.modulo (S n) 360) /\
      Double.ticks 360 (Double.whole n) = Double.whole n) /\
  step w Tick
  = setLightAndUIFromAngle
      (positionSlider (set_deg w (wrap (deg w + 1))) (wrap (deg w + 1)))
      (wrap (deg w + 1)) /\
  lightColor (step w Tick) = colorHex (angleColors (wrap (deg w + 1))) /\
  lightIntensity (step w Tick) = lightIntensity w /\
  light (step w Tick)
  = Some (mkLight (colorHex (angleColors (wrap (deg w + 1)))) (lightIntensity w)) /\
  circle_background (ui (step w Tick))
  = cssColor (angleColors (wrap (deg w + 1))) /\
  circle_boxShadow (ui (step w Tick))
  = ("1px 1px 5px 3px " ++ boxShadowColor (angleColors (wrap (deg w + 1))))%string /\
  angle_value (ui (step w Tick)) = ceil (wrap (deg w + 1)) /\
  slider_left (ui (step w Tick))
  = IZR (round (circleX (wrap (deg w + 1)))) + ORBIT_RADIUS - sliderW w / 2 /\
  slider_top (ui (step w Tick))
  = IZR (round (circleY (wrap (deg w + 1)))) + ORBIT_RADIUS - sliderH w / 2 /\
  slider_rotate (ui (step w Tick)) = wrap (deg w + 1) /\
  mdown (step w Tick) = mdown w.
Proof.
  intros Hw.
  assert (E : rem (deg w + 1) 360 = wrap (deg w + 1)) by (apply rem_wrap; lra).
  split; [ reflexivity | ].
  split; [ exact E | ].
  split; [ now apply (deg_step_range w Tick) | ].
  split.
  { intros z Hz. split.
    - change (deg (step w Tick)) with (rem (deg w + 1) 360).
      rewrite E, Hz. apply wrap_whole.
      rewrite Hz in Hw. destruct Hw as [L U].
      apply (le_IZR 0) in L. apply (lt_IZR z 360) in U. lia.
    - rewrite deg_run_ticks by (auto; lia).
      replace (INR 360) with 360 by (rewrite INR_IZR_INZ; reflexivity).
      unfold wrap. destruct (Rlt_dec (deg w + 360) 360); lra. }
  split; [ exact double_whole_turn | ].
  simpl. unfold onTick. rewrite E. repeat split.
Qed.

Lemma tick_advances_angle_witness :
  deg (step (set_deg (boot sample_page) 359) Tick) = 0 /\
  deg (run (set_deg (boot sample_page) 359) (repeat Tick 360)) = 359.
Proof.
  assert (H : 0 <= deg (set_deg (boot sample_page) 359) < 360)
    by (simpl; lra).
  destruct (tick_advances_angle (set_deg (boot sample_page) 359) H)
    as (_ & _ & _ & Hz & _).
  destruct (Hz 359%Z eq_refl) as [E E360].
  split; [ exact E | exact E360 ].
Defined.

(** C7 (as stated) fails for an angle that is not a whole number: on
    doubles the sum [deg + 1] is rounded, and 360 ticks take the angle
    3.3664606634298195 to 3.366460663429848. *)
Lemma drag_angle_not_restored :
  PrimFloat.ltb (Double.whole 0) Double.drag_angle = true /\
  PrimFloat.ltb Double.drag_angle (Double.whole 360) = true /\
  Double.ticks 360 Double.drag_angle = Double.drag_angle_after /\
  Double.ticks 360 Double.drag_angle <> Double.drag_angle.
Proof.
  split; [ vm_compute; reflexivity | ].
  split; [ vm_compute; reflexivity | ].
  split; [ vm_compute; reflexivity | ].
  intros H. apply (f_equal (fun x => PrimFloat.eqb x Double.drag_angle)) in H.
  vm_compute in H. discriminate H.
Qed.

(** Every state the program reaches has its angle in [0, 360). *)
Lemma deg_reachable (pg : Page) (w : World) (es : list Event) :
  main pg = Some w -> 0 <= deg (run w es) < 360.
Proof.
  intros H. apply deg_run_range. rewrite (deg_main pg w H). lra.
Qed.

(** *** The drag handler *)

(** C6.  The flag [mdown] is the state of the drag handler: a press sets
    it, a release and the pointer leaving the circle clear it, and none of
    the three changes anything else.  A move while it is set recomputes the
    angle from the pointer and places the slider, sets the colours and
    rebuilds the light from it; a move while it is clear, for example after
    a release, leaves the whole state as it is. *)
Theorem drag_state_machine (w : World) (x y : R) :
  step w MouseDown = set_mdown w true /\
  step w MouseUp = set_mdown w false /\
  step w MouseLeave = set_mdown w false /\
  (mdown w = true ->
   let d := angleFor (x - fst (elPos w)) (y - snd (elPos w)) in
   step w (MouseMove x y)
   = setLightAndUIFromAngle (positionSlider (set_deg w d) d) d /\
   deg (step w (MouseMove x y)) = d /\
   slider_rotate (ui (step w (MouseMove x y))) = d /\
   slider_left (ui (step w (MouseMove x y)))
   = IZR (round (circleX d)) + ORBIT_RADIUS - sliderW w / 2 /\
   slider_top (ui (step w (MouseMove x y)))
   = IZR (round (circleY d)) + ORBIT_RADIUS - sliderH w / 2 /\
   circle_background (ui (step w (MouseMove x y))) = cssColor (angleColors d) /\
   lightColor (step w (MouseMove x y)) = colorHex (angleColors d) /\
   light (step w (MouseMove x y))
   = Some (mkLight (colorHex (angleColors d)) (lightIntensity w)) /\
   mdown (step w (MouseMove x y)) = true) /\
  (mdown w = false -> step w (MouseMove x y) = w) /\
  step (step w MouseUp) (MouseMove x y) = step w MouseUp /\
  step (step w MouseLeave) (MouseMove x y) = step w MouseLeave /\
  deg (step (step w MouseDown) (MouseMove x y))
  = angleFor (x - fst (elPos w)) (y - snd (elPos w)).
Proof.
  repeat (split; [ reflexivity | ]).
  split.
  - intros Hm. simpl. unfold onMouseMove. rewrite Hm. simpl.
    repeat split. exact Hm.
  - split; [ | repeat split ].
    intros Hm. simpl. unfold onMouseMove. now rewrite Hm.
Qed.

Lemma drag_state_machine_witness :
  step (set_mdown (boot sample_page) false) (MouseMove 3 4)
  = set_mdown (boot sample_page) false /\
  mdown (step (set_mdown (boot sample_page) true) (MouseMove 3 4)) = true.
Proof.
  destruct (drag_state_machine (set_mdown (boot sample_page) false) 3 4)
    as (_ & _ & _ & _ & Hidle & _).
  destruct (drag_state_machine (set_mdown (boot sample_page) true) 3 4)
    as (_ & _ & _ & Hdrag & _).
  split; [ exact (Hidle eq_refl) | ].
  destruct (Hdrag eq_refl) as (_ & _ & _ & _ & _ & _ & _ & _ & Hm).
  exact Hm.
Defined.

(** *** The invariant of the light *)

Lemma angleColors_in_bands (d : R) : In (colorHex (angleColors d)) band_colors.
Proof. unfold angleColors. cmp_cases; simpl; auto 10. Qed.

Lemma nonneg_onInput (w : World) (v : string) (z : Z) :
  parseIntZ v = Some z -> (-10 <= z)%Z -> nonneg (lightIntensity (onInput w v)).
Proof.
  intros Hp Hz. rewrite (onInput_Z w v z Hp).
  destruct (Z.eqb z 1); simpl; [ lra | ].
  apply IZR_le in Hz. lra.
Qed.

Lemma light_ok_step (w : World) (e : Event) :
  input_at_least_minus_10 e -> light_ok w -> light_ok (step w e).
Proof.
  intros He [Hc Hi]. destruct e as [ | | | | x y | v ]; simpl;
    try (split; assumption).
  - split; [ apply angleColors_in_bands | exact Hi ].
  - unfold onMouseMove. destruct (mdown w); [ | split; assumption ].
    split; [ apply angleColors_in_bands | exact Hi ].
  - destruct (oninput_wired w); [ | split; assumption ].
    destruct He as (z & Hp & Hz).
    split; [ exact Hc | now apply (nonneg_onInput w v z) ].
Qed.

Lemma light_ok_main (pg : Page) (w : World) : main pg = Some w -> light_ok w.
Proof.
  unfold main, initColorControl. destruct (circle_offset pg); [ | discriminate ].
  intros [= <-]. unfold initIntensityControl.
  destruct (has_intensity_slider pg);
    (split; [ apply angleColors_in_bands | simpl; lra ]).
Qed.

Lemma light_ok_run (es : list Event) :
  forall w : World,
    Forall input_at_least_minus_10 es -> light_ok w -> light_ok (run w es).
Proof.
  induction es as [| e es IH]; intros w Hes Hw; [ exact Hw | ].
  inversion Hes as [| ? ? He Hrest]; subst.
  simpl. apply IH; [ exact Hrest | now apply light_ok_step ].
Qed.

Lemma lightColor_step_in_bands (w : World) (e : Event) :
  In (lightColor w) band_colors -> In (lightColor (step w e)) band_colors.
Proof.
  intros H. destruct e as [ | | | | x y | v ]; simpl; try exact H.
  - apply angleColors_in_bands.
  - unfold onMouseMove. destruct (mdown w); [ apply angleColors_in_bands | exact H ].
  - destruct (oninput_wired w); exact H.
Qed.

Lemma lightColor_run_in_bands (es : list Event) :
  forall w : World,
    In (lightColor w) band_colors -> In (lightColor (run w es)) band_colors.
Proof.
  induction es as [| e es IH]; intros w H; [ exact H | ].
  simpl. apply IH, lightColor_step_in_bands, H.
Qed.

(** C5 (as amended).  After [main] and after every further event,
    whatever the events are, the colour of the light is one of the colours
    of the bands, and the light in the scene has the current colour and
    intensity.  The intensity is at least 0 after [main], and it stays so
    as long as every input of the intensity slider is the text of an
    integer that is at least [-10]. *)
Theorem light_invariant (pg : Page) (w : World) (es : list Event) :
  main pg = Some w ->
  In (lightColor w) band_colors /\
  In (lightColor (run w es)) band_colors /\
  nonneg (lightIntensity w) /\
  (Forall input_at_least_minus_10 es -> nonneg (lightIntensity (run w es))) /\
  (Forall input_at_least_minus_10 es -> light_ok (run w es)) /\
  light (run w es)
  = Some (mkLight (lightColor (run w es)) (lightIntensity (run w es))).
Proof.
  intros Hm.
  pose proof (light_ok_main pg w Hm) as [Hc0 Hi0].
  split; [ exact Hc0 | ].
  split; [ now apply lightColor_run_in_bands | ].
  split; [ exact Hi0 | ].
  split; [ intros Hes; apply (light_ok_run es w Hes); now split | ].
  split; [ intros Hes; apply (light_ok_run es w Hes); now split | ].
  revert Hm.
  unfold main, initColorControl. destruct (circle_offset pg); [ | discriminate ].
  intros [= <-].
  assert (Hl : forall w0 : World,
             light w0 = Some (mkLight (lightColor w0) (lightIntensity w0)) ->
             light (run w0 es)
             = Some (mkLight (lightColor (run w0 es)) (lightIntensity (run w0 es)))).
  { clear Hc0 Hi0. induction es as [| e es IH]; intros w0 H0; [ exact H0 | ].
    simpl. apply IH. destruct e as [ | | | | x y | v ]; simpl; try exact H0;
      try reflexivity.
    - unfold onMouseMove. destruct (mdown w0); [ reflexivity | exact H0 ].
    - destruct (oninput_wired w0); [ reflexivity | exact H0 ]. }
  apply Hl. unfold initIntensityControl.
  destruct (has_intensity_slider pg); reflexivity.
Qed.

Lemma light_invariant_witness :
  exists w : World,
    main sample_page = Some w /\
    In (lightColor (run w [Tick; Input "abc"; Input "-20"; Tick])) band_colors /\
    nonneg (lightIntensity
              (run w [Tick; MouseDown; MouseMove 110 60; Input "0"; Input "10"])).
Proof.
  eexists. split; [ reflexivity | ].
  split.
  - exact (proj1 (proj2 (light_invariant sample_page _ _ eq_refl))).
  - refine (proj1 (proj2 (proj2 (proj2 (light_invariant sample_page _ _ eq_refl)))) _).
    repeat constructor; simpl.
    + exists 0%Z. split; [ reflexivity | lia ].
    + exists 10%Z. split; [ reflexivity | lia ].
Defined.

(** C5 (as stated) fails: after [main] on the sample page, the input [-20]
    makes the intensity [1 + (-20) * 0.1 = -1]. *)
Lemma negative_input_breaks_invariant :
  exists w : World,
    main sample_page = Some w /\
    parseInt "-20" = Num (-20) /\
    lightIntensity (step w (Input "-20")) = Num (1 + -20 * (1 / 10)) /\
    ~ nonneg (lightIntensity (step w (Input "-20"))) /\
    ~ light_ok (step w (Input "-20")).
Proof.
  eexists. split; [ reflexivity | ]. split; [ reflexivity | ].
  assert (E : forall w, lightIntensity (onInput w "-20") = Num (1 + -20 * (1 / 10)))
    by (intros w; apply (onInput_Z w "-20" (-20) eq_refl)).
  assert (S : forall w, oninput_wired w = true ->
                        step w (Input "-20") = onInput w "-20")
    by (intros w H; simpl; now rewrite H).
  unfold light_ok. rewrite S, E by reflexivity.
  split; [ reflexivity | ].
  split; [ simpl; lra | intros [_ H]; simpl in H; lra ].
Qed.

(** *** Starting without the intensity slider *)

Lemma oninput_wired_step (w : World) (e : Event) :
  oninput_wired (step w e) = oninput_wired w.
Proof.
  destruct e as [ | | | | x y | v ]; simpl; try reflexivity.
  - unfold onMouseMove. destruct (mdown w); reflexivity.
  - destruct (oninput_wired w) eqn:E; [ exact E | exact E ].
Qed.

Lemma oninput_wired_run (es : list Event) :
  forall w : World, oninput_wired (run w es) = oninput_wired w.
Proof.
  induction es as [| e es IH]; intros w; [ reflexivity | ].
  simpl. rewrite IH. apply oninput_wired_step.
Qed.

(** C8.  On a page that has the circle and no intensity slider, [main]
    returns: the colour control is initialised as on any page, no input
    handler is set, and an input event changes nothing, whatever happened
    before it. *)
Theorem missing_intensity_slider (pg : Page) (elP : R * R) :
  circle_offset pg = Some elP ->
  has_intensity_slider pg = false ->
  exists w : World,
    main pg = Some w /\
    initColorControl pg (initLight (boot pg)) = Some w /\
    oninput_wired w = false /\
    light w = Some (mkLight 0xFFFFFF (Num 1)) /\
    deg w = 0 /\ mdown w = false /\ elPos w = elP /\
    main (mkPage (circle_offset pg) (slider_width pg) (slider_height pg)
                 true (page_ui pg))
    = Some (set_oninput w true) /\
    forall (es : list Event) (v : string),
      step (run w es) (Input v) = run w es.
Proof.
  intros Hc Hs.
  destruct (initColorControl pg (initLight (boot pg))) as [w |] eqn:Hw;
    [ | unfold initColorControl in Hw; rewrite Hc in Hw; discriminate Hw ].
  exists w.
  assert (Hm : main pg = Some w).
  { unfold main. rewrite Hw. unfold initIntensityControl. now rewrite Hs. }
  split; [ exact Hm | ]. split; [ reflexivity | ].
  unfold initColorControl in Hw. rewrite Hc in Hw. injection Hw as <-.
  split; [ reflexivity | ].
  split.
  { simpl. unfold angleColors. cmp_cases; reflexivity. }
  repeat (split; [ reflexivity | ]).
  split.
  { unfold main, initColorControl. simpl. rewrite Hc. reflexivity. }
  intros es v. simpl. now rewrite oninput_wired_run.
Qed.

Lemma missing_intensity_slider_witness :
  exists w : World,
    main sample_page_no_slider = Some w /\
    step (run w [Tick; MouseDown]) (Input "5") = run w [Tick; MouseDown].
Proof.
  destruct (missing_intensity_slider sample_page_no_slider (100, 50)
              eq_refl eq_refl)
    as (w & Hm & _ & _ & _ & _ & _ & _ & _ & Hin).
  exists w. split; [ exact Hm | apply Hin ].
Defined.

(** *** The slider and the pointer *)

(** [atan2] gives back the angle of a point in polar form. *)
Lemma atan2_polar (r phi : R) :
  0 < r -> - PI < phi <= PI -> atan2 (r * sin phi) (r * cos phi) = phi.
Proof.
  intros Hr Hphi. pose proof PI_RGT_0 as Hpi.
  assert (Hq : forall c, c <> 0 -> r * sin phi / (r * c) = sin phi / c)
    by (intros c Hc; field; split; lra).
  unfold atan2.
  destruct (Rlt_dec 0 (r * cos phi)) as [Hc | Hc].
  - (* the right half plane *)
    assert (Hcos : 0 < cos phi) by nra.
    assert (Hin : - (PI / 2) < phi < PI / 2).
    { split.
      - destruct (Rlt_dec (- (PI / 2)) phi) as [L | G]; [ exact L | exfalso ].
        assert (cos (- phi) < 0 \/ cos (- phi) = 0).
        { destruct (Req_dec_T phi (- (PI / 2))) as [-> | N].
          - right. rewrite Ropp_involutive. apply cos_PI2.
          - left. apply cos_lt_0; lra. }
        rewrite cos_neg in H. lra.
      - destruct (Rlt_dec phi (PI / 2)) as [L | G]; [ exact L | exfalso ].
        assert (cos phi < 0 \/ cos phi = 0).
        { destruct (Req_dec_T phi (PI / 2)) as [-> | N].
          - right. apply cos_PI2.
          - left. apply cos_lt_0; lra. }
        lra. }
    rewrite Hq by lra. apply (atan_tan phi Hin).
  - destruct (Rlt_dec (r * cos phi) 0) as [Hc' | Hc'].
    + (* the left half plane *)
      assert (Hcos : cos phi < 0) by nra.
      rewrite Hq by lra.
      destruct (Rle_dec 0 (r * sin phi)) as [Hs | Hs].
      * assert (Hsin : 0 <= sin phi) by nra.
        assert (Hin : PI / 2 < phi).
        { destruct (Rlt_dec (PI / 2) phi) as [L | G]; [ exact L | exfalso ].
          destruct (Rle_dec (- (PI / 2)) phi) as [L' | G'].
          - pose proof (cos_ge_0 phi L' ltac:(lra)). lra.
          - pose proof (sin_lt_0_var phi ltac:(lra) ltac:(lra)).
            destruct (Req_dec_T (sin phi) 0) as [Z | NZ]; lra. }
        replace (sin phi / cos phi) with (tan (phi - PI)).
        -- rewrite atan_tan by lra. ring.
        -- unfold tan. rewrite sin_minus, cos_minus, sin_PI, cos_PI.
           field. lra.
      * assert (Hsin : sin phi < 0) by nra.
        assert (Hin : phi < - (PI / 2)).
        { destruct (Rlt_dec phi (- (PI / 2))) as [L | G]; [ exact L | exfalso ].
          destruct (Rle_dec phi (PI / 2)) as [L' | G'].
          - pose proof (cos_ge_0 phi ltac:(lra) L'). lra.
          - pose proof (sin_ge_0 phi ltac:(lra) ltac:(lra)). lra. }
        replace (sin phi / cos phi) with (tan (phi + PI)).
        -- rewrite atan_tan by lra. ring.
        -- unfold tan. rewrite neg_sin, neg_cos. field. lra.
    + (* the vertical axis *)
      assert (Hcos : cos phi = 0) by nra.
      pose proof (sin2_cos2 phi) as Hsq. rewrite Hcos in Hsq.
      unfold Rsqr in Hsq.
      destruct (Rlt_dec 0 (r * sin phi)) as [Hs | Hs].
      * assert (Hsin : 0 < sin phi) by nra.
        destruct (Rle_dec phi 0) as [L | G].
        -- destruct (Req_dec_T phi 0) as [-> | N].
           ++ rewrite sin_0 in Hsin. lra.
           ++ pose proof (sin_lt_0_var phi ltac:(lra) ltac:(lra)). lra.
        -- destruct (Rtotal_order phi (PI / 2)) as [L | [E | G']].
           ++ pose proof (cos_gt_0 phi ltac:(lra) L). lra.
           ++ symmetry. exact E.
           ++ pose proof (cos_lt_0 phi G' ltac:(lra)). lra.
      * destruct (Rlt_dec (r * sin phi) 0) as [Hs' | Hs'].
        -- assert (Hsin : sin phi < 0) by nra.
           destruct (Rle_dec 0 phi) as [L | G].
           ++ pose proof (sin_ge_0 phi L ltac:(lra)). lra.
           ++ destruct (Rtotal_order phi (- (PI / 2))) as [L | [E | G']].
              ** pose proof (cos_lt_0 (- phi) ltac:(lra) ltac:(lra)) as Hn.
                 rewrite cos_neg in Hn. lra.
              ** symmetry. exact E.
              ** pose proof (cos_gt_0 phi G' ltac:(lra)). lra.
        -- exfalso. assert (sin phi = 0) by nra. nra.
Qed.

Lemma angleFor_centered (x y : R) :
  angleFor (x + ORBIT_RADIUS) (y + ORBIT_RADIUS)
  = rem (- atan2 x y / (PI / 180) + 180) 360.
Proof.
  unfold angleFor.
  replace (x + ORBIT_RADIUS - ORBIT_RADIUS) with x by ring.
  replace (y + ORBIT_RADIUS - ORBIT_RADIUS) with y by ring.
  reflexivity.
Qed.

Lemma sliderCenter_positionSlider (w : World) (d : R) :
  sliderCenter (positionSlider w d)
  = (IZR (round (circleX d)) + ORBIT_RADIUS,
     IZR (round (circleY d)) + ORBIT_RADIUS).
Proof. unfold sliderCenter. simpl. f_equal; lra. Qed.

Lemma angleOfSlider_positionSlider (w : World) (d : R) :
  angleOfSlider (positionSlider w d)
  = angleFor (IZR (round (circleX d)) + ORBIT_RADIUS)
             (IZR (round (circleY d)) + ORBIT_RADIUS).
Proof.
  unfold angleOfSlider. now rewrite sliderCenter_positionSlider.
Qed.

(** The point of the circle at angle [a] is seen by the pointer at angle
    [a]. *)
Lemma angleFor_circle (a : R) :
  0 <= a < 360 ->
  angleFor (circleX a + ORBIT_RADIUS) (circleY a + ORBIT_RADIUS) = a.
Proof.
  intros Ha. pose proof PI_RGT_0 as Hpi.
  rewrite angleFor_centered. unfold circleX, circleY, ORBIT_RADIUS.
  set (theta := a * PI / 180).
  assert (Ht : 0 <= theta < 2 * PI) by (unfold theta; split; nra).
  replace (sin theta) with (sin (PI - theta)) by apply sin_PI_x.
  replace (- cos theta) with (cos (PI - theta))
    by (rewrite cos_minus, cos_PI, sin_PI; ring).
  rewrite atan2_polar by lra.
  replace (- (PI - theta) / (PI / 180) + 180) with a
    by (unfold theta; field; lra).
  now apply rem_small.
Qed.

Lemma PI_lt_10_3 : PI < 10 / 3.
Proof.
  destruct (PI_2_3_7_ineq 0) as [_ H].
  unfold PI_2_3_7_tg, tg_alt, Ratan_seq in H. simpl in H. lra.
Qed.

(** At one degree the point of the circle rounds to the pixel straight
    above the centre. *)
Lemma round_circle_1 : round (circleX 1) = 0%Z /\ round (circleY 1) = (-27)%Z.
Proof.
  pose proof PI2_1 as Hpi. pose proof PI_lt_10_3 as Hpi'.
  unfold circleX, circleY, ORBIT_RADIUS.
  set (theta := 1 * PI / 180).
  assert (Ht : 0 < theta < / 54) by (unfold theta; lra).
  pose proof (sin_gt_0 theta ltac:(lra) ltac:(lra)) as Hs0.
  pose proof (sin_lt_x theta ltac:(lra)) as Hs1.
  pose proof (cos_gt_0 theta ltac:(lra) ltac:(lra)) as Hc0.
  pose proof (COS_bound theta) as [_ Hc1].
  pose proof (sin2_cos2 theta) as Hsq. unfold Rsqr in Hsq.
  assert (Hc : 53 / 54 < cos theta) by nra.
  split; apply floor_unique; simpl; lra.
Qed.

Lemma atan2_up : atan2 0 (-27) = PI.
Proof.
  unfold atan2.
  destruct (Rlt_dec 0 (-27)) as [H | _]; [ lra | ].
  destruct (Rlt_dec (-27) 0) as [_ | H]; [ | lra ].
  destruct (Rle_dec 0 0) as [_ | H]; [ | lra ].
  replace (0 / -27) with 0 by lra. rewrite atan_0. ring.
Qed.

Lemma angleOfSlider_1 (w : World) : angleOfSlider (positionSlider w 1) = 0.
Proof.
  rewrite angleOfSlider_positionSlider, angleFor_centered.
  destruct round_circle_1 as [-> ->]. rewrite atan2_up.
  pose proof PI_RGT_0 as Hpi.
  replace (- PI / (PI / 180) + 180) with 0 by (field; lra).
  apply rem_small. lra.
Qed.

(** *** The error of rounding the position to whole pixels *)

Lemma round_error (x : R) : - / 2 <= IZR (round x) - x <= / 2.
Proof.
  unfold round, floor.
  destruct (base_Int_part (x + / 2)) as [H1 H2]. lra.
Qed.

Lemma INR_fact_vals :
  INR (fact 1) = 1 /\ INR (fact 3) = 6 /\ INR (fact 5) = 120 /\ INR (fact 7) = 5040.
Proof.
  repeat split; rewrite INR_IZR_INZ; apply f_equal; vm_compute; reflexivity.
Qed.
Lemma sin_lower_25 : / 26 < sin (/ 25).
Proof.
  pose proof PI2_1 as Hpi.
  destruct (SIN (/ 25) ltac:(lra) ltac:(lra)) as [H _].
  unfold sin_lb, sin_approx, sin_term in H.
  cbn [sum_f_R0 Nat.mul Nat.add pow] in H.
  destruct INR_fact_vals as (E1 & E3 & E5 & E7).
  rewrite E1, E3, E5, E7 in H. lra.
Qed.

Lemma small_angle (x : R) :
  - (PI / 2) < x < PI / 2 -> - / 26 <= sin x <= / 26 -> - / 25 <= x <= / 25.
Proof.
  intros Hx Hs. pose proof PI2_1 as Hpi. pose proof sin_lower_25 as H25.
  split.
  - destruct (Rle_dec (- / 25) x) as [L | G]; [ exact L | exfalso ].
    assert (Hlt : sin x < sin (- / 25))
      by (apply sin_increasing_1; lra).
    rewrite sin_neg in Hlt. lra.
  - destruct (Rle_dec x (/ 25)) as [L | G]; [ exact L | exfalso ].
    assert (Hlt : sin (/ 25) < sin x)
      by (apply sin_increasing_1; lra).
    lra.
Qed.

Lemma near_angle (d : R) :
  - (2 * PI) < d < 2 * PI -> 0 < cos d -> - / 26 <= sin d <= / 26 ->
  - / 25 <= d <= / 25 \/ 2 * PI - / 25 <= d \/ d <= - (2 * PI) + / 25.
Proof.
  intros Hd Hc Hs. pose proof PI2_1 as Hpi.
  destruct (Rlt_dec d (PI / 2)) as [U | U].
  - destruct (Rlt_dec (- (PI / 2)) d) as [L | L].
    + left. apply small_angle; [ lra | exact Hs ].
    + destruct (Rle_dec (- (3 * (PI / 2))) d) as [M | M].
      * pose proof (cos_le_0 (- d) ltac:(lra) ltac:(lra)) as Hn.
        rewrite cos_neg in Hn. lra.
      * right. right.
        assert (Hx : - / 25 <= d + 2 * PI <= / 25).
        { apply small_angle; [ lra | ].
          rewrite sin_plus, sin_2PI, cos_2PI. lra. }
        lra.
  - destruct (Rle_dec d (3 * (PI / 2))) as [M | M].
    + pose proof (cos_le_0 d ltac:(lra) M). lra.
    + right. left.
      assert (Hx : - / 25 <= d - 2 * PI <= / 25).
      { apply small_angle; [ lra | ].
        rewrite sin_minus, sin_2PI, cos_2PI. lra. }
      lra.
Qed.

(** A point within half a pixel, in each coordinate, of the point of the
    circle at angle [theta] is seen at an angle within 1/25 radian of
    [theta], modulo a full turn. *)
Lemma rounded_point_angle (theta beta rho X Y : R) :
  0 <= theta < 2 * PI -> 0 <= beta < 2 * PI -> 0 < rho ->
  X = rho * sin beta -> Y = - (rho * cos beta) ->
  - / 2 <= X - 27 * sin theta <= / 2 ->
  - / 2 <= Y - 27 * - cos theta <= / 2 ->
  - / 25 <= beta - theta <= / 25 \/
  2 * PI - / 25 <= beta - theta \/ beta - theta <= - (2 * PI) + / 25.
Proof.
  intros Ht Hb Hrho HX HY Hex Hey.
  pose proof (SIN_bound theta) as [Hs1 Hs2].
  pose proof (COS_bound theta) as [Hc1 Hc2].
  pose proof (sin2_cos2 theta) as Hsq. unfold Rsqr in Hsq.
  set (s := sin theta) in *. set (c := cos theta) in *.
  set (ex := X - 27 * s) in *. set (ey := Y - 27 * - c) in *.
  assert (Hdot : 27 * rho * cos (beta - theta) = 729 + 27 * s * ex - 27 * c * ey).
  { rewrite cos_minus. fold s c.
    replace (27 * rho * (cos beta * c + sin beta * s))
      with (27 * c * (rho * cos beta) + 27 * s * (rho * sin beta)) by ring.
    rewrite <- HX. replace (rho * cos beta) with (- Y) by lra.
    unfold ex, ey. nra. }
  assert (Hcross : 27 * rho * sin (beta - theta) = 27 * c * ex + 27 * s * ey).
  { rewrite sin_minus. fold s c.
    replace (27 * rho * (sin beta * c - cos beta * s))
      with (27 * c * (rho * sin beta) - 27 * s * (rho * cos beta)) by ring.
    rewrite <- HX. replace (rho * cos beta) with (- Y) by lra.
    unfold ex, ey. nra. }
  assert (B1 : - / 2 <= s * ex <= / 2) by (split; nra).
  assert (B2 : - / 2 <= c * ey <= / 2) by (split; nra).
  assert (B3 : - / 2 <= c * ex <= / 2) by (split; nra).
  assert (B4 : - / 2 <= s * ey <= / 2) by (split; nra).
  assert (Hpos : 702 <= 27 * rho * cos (beta - theta)) by lra.
  assert (Habs : -27 <= 27 * rho * sin (beta - theta) <= 27) by lra.
  assert (Hcos : 0 < cos (beta - theta)) by nra.
  apply near_angle; [ lra | exact Hcos | ].
  pose proof (COS_bound (beta - theta)) as [_ Hcb].
  assert (Hr : 26 <= rho) by nra.
  split; nra.
Qed.

(** Every point other than the origin is in polar form at the angle
    [atan2] gives for it. *)
Lemma atan_polar (x y : R) :
  x <> 0 ->
  x = x / cos (atan (y / x)) * cos (atan (y / x)) /\
  y = x / cos (atan (y / x)) * sin (atan (y / x)) /\
  0 < cos (atan (y / x)).
Proof.
  intros Hx.
  pose proof (atan_bound (y / x)) as Hb.
  pose proof (cos_gt_0 (atan (y / x)) ltac:(lra) ltac:(lra)) as Hc.
  pose proof (tan_atan (y / x)) as Ht. unfold tan in Ht.
  split; [ field; lra | ]. split; [ | exact Hc ].
  replace (x / cos (atan (y / x)) * sin (atan (y / x)))
    with (x * (sin (atan (y / x)) / cos (atan (y / x)))) by (field; lra).
  rewrite Ht. field. exact Hx.
Qed.

Lemma atan2_polar_inv (y x : R) :
  x <> 0 \/ y <> 0 ->
  exists rho : R,
    0 < rho /\ x = rho * cos (atan2 y x) /\ y = rho * sin (atan2 y x).
Proof.
  intros Hxy. unfold atan2.
  destruct (Rlt_dec 0 x) as [Hx | Hx].
  - destruct (atan_polar x y ltac:(lra)) as (E1 & E2 & Hc).
    exists (x / cos (atan (y / x))).
    split; [ apply Rdiv_lt_0_compat; assumption | split; assumption ].
  - destruct (Rlt_dec x 0) as [Hx' | Hx'].
    + destruct (atan_polar x y ltac:(lra)) as (E1 & E2 & Hc).
      exists (- x / cos (atan (y / x))).
      split; [ apply Rdiv_lt_0_compat; lra | ].
      destruct (Rle_dec 0 y) as [Hy | Hy].
      * rewrite neg_cos, neg_sin. split; [ rewrite E1 at 1 | rewrite E2 at 1 ];
          field; lra.
      * rewrite cos_minus, sin_minus, cos_PI, sin_PI.
        split; [ rewrite E1 at 1 | rewrite E2 at 1 ]; field; lra.
    + assert (x = 0) by lra. subst x.
      destruct (Rlt_dec 0 y) as [Hy | Hy].
      * exists y. rewrite cos_PI2, sin_PI2. repeat split; lra.
      * destruct (Rlt_dec y 0) as [Hy' | Hy']; [ | exfalso; lra ].
        exists (- y). rewrite cos_neg, sin_neg, cos_PI2, sin_PI2.
        repeat split; lra.
Qed.

(** The slider placed for the angle [a] is seen at an angle within 2.4
    degrees of [a], modulo 360. *)
Lemma angleOfSlider_close (w : World) (a : R) :
  0 <= a < 360 ->
  let b := angleOfSlider (positionSlider w a) in
  - (12 / 5) <= b - a <= 12 / 5 \/
  360 - 12 / 5 <= b - a \/ b - a <= - 360 + 12 / 5.
Proof.
  intros Ha b. unfold b. clear b.
  rewrite angleOfSlider_positionSlider, angleFor_centered.
  pose proof (round_error (circleX a)) as Hex.
  pose proof (round_error (circleY a)) as Hey.
  unfold circleX, circleY, ORBIT_RADIUS in *.
  set (theta := a * PI / 180) in *.
  set (X := IZR (round (27 * sin theta))) in *.
  set (Y := IZR (round (27 * - cos theta))) in *.
  pose proof PI2_3_2 as Hpi. pose proof PI_4 as Hpi4.
  assert (Ht : 0 <= theta < 2 * PI) by (unfold theta; split; nra).
  pose proof (sin2_cos2 theta) as Hsq. unfold Rsqr in Hsq.
  assert (Hnz : Y <> 0 \/ X <> 0).
  { destruct (Req_dec_T Y 0) as [EY | NY]; [ | now left ].
    destruct (Req_dec_T X 0) as [EX | NX]; [ exfalso | now right ].
    rewrite EX in Hex. rewrite EY in Hey. nra. }
  destruct (atan2_polar_inv X Y Hnz) as (rho & Hrho & HY & HX).
  pose proof (atan2_range X Y) as Hal.
  set (alpha := atan2 X Y) in *.
  assert (Hnear :
            - / 25 <= (PI - alpha) - theta <= / 25 \/
            2 * PI - / 25 <= (PI - alpha) - theta \/
            (PI - alpha) - theta <= - (2 * PI) + / 25).
  { apply (rounded_point_angle theta (PI - alpha) rho X Y);
      try assumption; try lra.
    - rewrite sin_PI_x. exact HX.
    - rewrite cos_minus, cos_PI, sin_PI. lra. }
  set (u := 180 / PI).
  assert (Hu : u * PI = 180) by (unfold u; field; lra).
  assert (Hu' : 0 < u < 60) by (split; nra).
  assert (Ea : a = theta * u) by (unfold theta, u; field; lra).
  assert (Eb : - alpha / (PI / 180) + 180 = (PI - alpha) * u)
    by (unfold u; field; lra).
  rewrite Eb, rem_small by (split; nra).
  rewrite Ea.
  replace ((PI - alpha) * u - theta * u) with ((PI - alpha - theta) * u) by ring.
  destruct Hnear as [H | [H | H]]; [ left; split | right; left | right; right ];
    nra.
Qed.

(** C2 (as amended).  For every angle [a] in [0, 360), the pointer at the
    point [(R sin t, - R cos t)] of the circle is converted back to [a] by
    the angle computation of the mouse handler.  [positionSlider] does not
    place the slider at that point: it rounds both coordinates to whole
    pixels first.  The slider it places is converted back to the angle of
    the rounded point, which is in [0, 360) and within 2.4 degrees of [a],
    modulo 360. *)
Theorem angle_round_trip (a : R) :
  0 <= a < 360 ->
  angleFor (circleX a + ORBIT_RADIUS) (circleY a + ORBIT_RADIUS) = a /\
  (forall w : World,
      sliderCenter (positionSlider w a)
      = (IZR (round (circleX a)) + ORBIT_RADIUS,
         IZR (round (circleY a)) + ORBIT_RADIUS) /\
      angleOfSlider (positionSlider w a)
      = angleFor (IZR (round (circleX a)) + ORBIT_RADIUS)
                 (IZR (round (circleY a)) + ORBIT_RADIUS) /\
      0 <= angleOfSlider (positionSlider w a) < 360 /\
      (- (12 / 5) <= angleOfSlider (positionSlider w a) - a <= 12 / 5 \/
       360 - 12 / 5 <= angleOfSlider (positionSlider w a) - a \/
       angleOfSlider (positionSlider w a) - a <= - 360 + 12 / 5)).
Proof.
  intros Ha. split; [ now apply angleFor_circle | ].
  intros w. split; [ apply sliderCenter_positionSlider | ].
  split; [ apply angleOfSlider_positionSlider | ].
  split; [ unfold angleOfSlider; apply angleFor_range | ].
  now apply angleOfSlider_close.
Qed.

Lemma angle_round_trip_witness :
  angleFor (circleX 90 + ORBIT_RADIUS) (circleY 90 + ORBIT_RADIUS) = 90.
Proof.
  assert (H : 0 <= 90 < 360) by lra.
  exact (proj1 (angle_round_trip 90 H)).
Defined.

(** C2 (as stated) fails at one degree: the slider placed for the angle 1
    is converted back to the angle 0, a whole degree away. *)
Lemma round_trip_1_gives_0 :
  angleOfSlider (positionSlider (boot sample_page) 1) = 0 /\
  Rabs (angleOfSlider (positionSlider (boot sample_page) 1) - 1) = 1.
Proof.
  rewrite angleOfSlider_1. split; [ reflexivity | ].
  replace (0 - 1) with (- (1)) by ring. rewrite Rabs_Ropp. apply Rabs_R1.
Qed.

(** ** Further properties of the program *)

(** *** The angle and what is derived from it *)

Lemma in_sync_pipeline (w : World) (d : R) :
  in_sync (setLightAndUIFromAngle (positionSlider (set_deg w d) d) d).
Proof. repeat split. Qed.

Lemma in_sync_step (w : World) (e : Event) : in_sync w -> in_sync (step w e).
Proof.
  intros H. destruct e as [ | | | | x y | v ]; simpl; try exact H.
  - apply in_sync_pipeline.
  - unfold onMouseMove. destruct (mdown w); [ apply in_sync_pipeline | exact H ].
  - destruct (oninput_wired w); exact H.
Qed.

Lemma in_sync_run (es : list Event) :
  forall w : World, in_sync w -> in_sync (run w es).
Proof.
  induction es as [| e es IH]; intros w H; [ exact H | ].
  simpl. apply IH, in_sync_step, H.
Qed.

Lemma light_built_step (w : World) (e : Event) :
  light w = Some (mkLight (lightColor w) (lightIntensity w)) ->
  light (step w e)
  = Some (mkLight (lightColor (step w e)) (lightIntensity (step w e))).
Proof.
  intros H. destruct e as [ | | | | x y | v ]; simpl; try exact H;
    try reflexivity.
  - unfold onMouseMove. destruct (mdown w); [ reflexivity | exact H ].
  - destruct (oninput_wired w); [ reflexivity | exact H ].
Qed.

Lemma light_built_run (es : list Event) :
  forall w : World,
    light w = Some (mkLight (lightColor w) (lightIntensity w)) ->
    light (run w es)
    = Some (mkLight (lightColor (run w es)) (lightIntensity (run w es))).
Proof.
  induction es as [| e es IH]; intros w H; [ exact H | ].
  simpl. apply IH, light_built_step, H.
Qed.

Lemma light_built_main (pg : Page) (w : World) :
  main pg = Some w ->
  light w = Some (mkLight (lightColor w) (lightIntensity w)).
Proof.
  unfold main, initColorControl. destruct (circle_offset pg); [ | discriminate ].
  intros [= <-]. unfold initIntensityControl.
  destruct (has_intensity_slider pg); reflexivity.
Qed.

Lemma in_sync_main (pg : Page) (w : World) : main pg = Some w -> in_sync w.
Proof.
  unfold main, initColorControl. destruct (circle_offset pg); [ | discriminate ].
  intros [= <-]. unfold initIntensityControl.
  destruct (has_intensity_slider pg); repeat split.
Qed.

Lemma ceil_range (d : R) : 0 <= d < 360 -> (0 <= ceil d <= 360)%Z.
Proof.
  intros Hd. unfold ceil.
  destruct (base_Int_part (- d)) as [H1 H2].
  assert (L : IZR (Int_part (- d)) < 1) by lra.
  assert (U : IZR (-361) < IZR (Int_part (- d))) by lra.
  apply lt_IZR in L. apply lt_IZR in U. lia.
Qed.

Lemma ceil_IZR (z : Z) : ceil (IZR z) = z.
Proof.
  unfold ceil. rewrite <- opp_IZR.
  rewrite <- (Int_part_spec (IZR (- z)) (- z)); [ lia | lra ].
Qed.

(** X1.  In every state the program reaches, the timer and the pointer
    alike leave the angle in [0, 360); so the table of bands always has a
    band for it, and the inclusive bound 360 of the last band and the
    white default after it are never what decides the colour. *)
Theorem reachable_angle_in_range (pg : Page) (w : World) (es : list Event) :
  main pg = Some w ->
  0 <= deg (run w es) < 360 /\
  first_above (deg (run w es)) bands = Some (angleColors (deg (run w es))) /\
  (colorHex (angleColors (deg (run w es))) = 0xFFFFFF%Z <->
   deg (run w es) < 40).
Proof.
  intros Hm.
  assert (Hr : 0 <= deg (run w es) < 360)
    by (apply deg_run_range; rewrite (deg_main pg w Hm); lra).
  split; [ exact Hr | ].
  split; [ apply angleColors_first_above; lra | ].
  set (d := deg (run w es)) in *. unfold angleColors.
  split.
  - cmp_cases; simpl; intros E; try discriminate E; lra.
  - intros L. cmp_cases. reflexivity.
Qed.

Lemma reachable_angle_in_range_witness :
  exists w : World,
    main sample_page = Some w /\
    0 <= deg (run w [MouseDown; MouseMove 140 77; Tick]) < 360.
Proof.
  eexists. split; [ reflexivity | ].
  exact (proj1 (reachable_angle_in_range sample_page _ _ eq_refl)).
Defined.

(** X2.  In every state the program reaches, the light colour, the
    colours of the circle, the angle shown in the [angle] input, and the
    place and the rotation of the slider are those derived from the
    current angle: no event, an input of the intensity slider included,
    leaves them out of step with it. *)
Theorem reachable_state_in_sync (pg : Page) (w : World) (es : list Event) :
  main pg = Some w ->
  in_sync (run w es) /\
  light (run w es)
  = Some (mkLight (colorHex (angleColors (deg (run w es))))
                  (lightIntensity (run w es))).
Proof.
  intros Hm.
  assert (Hs : in_sync (run w es)) by (apply in_sync_run, (in_sync_main pg), Hm).
  split; [ exact Hs | ].
  destruct Hs as (<- & _).
  apply light_built_run, (light_built_main pg), Hm.
Qed.

Lemma reachable_state_in_sync_witness :
  exists w : World,
    main sample_page = Some w /\
    in_sync (run w [Tick; Input "3"; MouseDown; MouseMove 140 77]).
Proof.
  eexists. split; [ reflexivity | ].
  exact (proj1 (reachable_state_in_sync sample_page _ _ eq_refl)).
Defined.

(** X3.  The angle shown in the [angle] input is always a whole number
    from 0 to 360: the angle rounded up.  It is the angle itself when
    that is a whole number, as it is while only the timer runs. *)
Theorem angle_readout_range (pg : Page) (w : World) (es : list Event) :
  main pg = Some w ->
  (0 <= angle_value (ui (run w es)) <= 360)%Z /\
  deg (run w es) <= IZR (angle_value (ui (run w es))) < deg (run w es) + 1 /\
  (forall z : Z, deg (run w es) = IZR z -> angle_value (ui (run w es)) = z).
Proof.
  intros Hm.
  assert (Hr : 0 <= deg (run w es) < 360)
    by (apply deg_run_range; rewrite (deg_main pg w Hm); lra).
  pose proof (in_sync_run es w (in_sync_main pg w Hm)) as (_ & _ & _ & Ha & _).
  rewrite Ha. split; [ now apply ceil_range | ].
  split.
  - unfold ceil. rewrite opp_IZR.
    destruct (base_Int_part (- deg (run w es))) as [H1 H2]. lra.
  - intros z ->. apply ceil_IZR.
Qed.

Lemma angle_readout_range_witness :
  exists w : World,
    main sample_page = Some w /\
    (0 <= angle_value (ui (run w [MouseDown; MouseMove 99 77])) <= 360)%Z.
Proof.
  eexists. split; [ reflexivity | ].
  exact (proj1 (angle_readout_range sample_page _ _ eq_refl)).
Defined.

(** *** Where the slider is placed *)

Lemma round_bound (x : R) (n : Z) :
  - IZR n <= x <= IZR n -> (- n <= round x <= n)%Z.
Proof.
  intros Hx. pose proof (round_error x) as He.
  assert (L : IZR (- n - 1) < IZR (round x)) by (rewrite minus_IZR, opp_IZR; lra).
  assert (U : IZR (round x) < IZR (n + 1)) by (rewrite plus_IZR; lra).
  apply lt_IZR in L. apply lt_IZR in U. lia.
Qed.

(** X4.  Whatever the angle, the centre of the slider is placed at a
    point with whole coordinates inside the square of side 54 that holds
    the circle, and within a pixel of the orbit: its distance from the
    centre of the circle is between 26 and 28. *)
Theorem slider_stays_on_orbit (w : World) (d : R) :
  let x := fst (sliderCenter (positionSlider w d)) in
  let y := snd (sliderCenter (positionSlider w d)) in
  (exists i j : Z,
      x = IZR i /\ y = IZR j /\ (0 <= i <= 54)%Z /\ (0 <= j <= 54)%Z) /\
  26 * 26 < (x - ORBIT_RADIUS) * (x - ORBIT_RADIUS)
            + (y - ORBIT_RADIUS) * (y - ORBIT_RADIUS) < 28 * 28.
Proof.
  rewrite sliderCenter_positionSlider. simpl fst. simpl snd.
  pose proof (round_error (circleX d)) as Hex.
  pose proof (round_error (circleY d)) as Hey.
  unfold circleX, circleY, ORBIT_RADIUS in *.
  set (t := d * PI / 180) in *.
  pose proof (SIN_bound t) as Hs. pose proof (COS_bound t) as Hc.
  pose proof (sin2_cos2 t) as Hsq. unfold Rsqr in Hsq.
  split.
  - exists (round (27 * sin t) + 27)%Z, (round (27 * - cos t) + 27)%Z.
    rewrite !plus_IZR.
    pose proof (round_bound (27 * sin t) 27 ltac:(lra)) as Bx.
    pose proof (round_bound (27 * - cos t) 27 ltac:(lra)) as By.
    repeat split; lia.
  - set (X := IZR (round (27 * sin t))) in *.
    set (Y := IZR (round (27 * - cos t))) in *.
    set (s := sin t) in *. set (c := cos t) in *.
    replace (X + 27 - 27) with X by ring.
    replace (Y + 27 - 27) with Y by ring.
    set (ex := X - 27 * s) in *. set (ey := Y - 27 * - c) in *.
    set (T := s * ex - c * ey).
    assert (Hsq' : ex * ex + ey * ey <= / 2) by nra.
    assert (HT : T * T + (c * ex + s * ey) * (c * ex + s * ey)
                 = (s * s + c * c) * (ex * ex + ey * ey))
      by (unfold T; ring).
    rewrite Hsq, Rmult_1_l in HT.
    assert (HT2 : T * T <= / 2)
      by (pose proof (Rle_0_sqr (c * ex + s * ey)) as Hq;
          unfold Rsqr in Hq; lra).
    assert (BT : - (3 / 4) <= T <= 3 / 4).
    { split.
      - destruct (Rle_dec (- (3 / 4)) T) as [L | G]; [ exact L | exfalso; nra ].
      - destruct (Rle_dec T (3 / 4)) as [L | G]; [ exact L | exfalso; nra ]. }
    assert (E : X * X + Y * Y = 729 + 54 * T + (ex * ex + ey * ey))
      by (unfold T, ex, ey;
          replace 729 with (729 * (s * s + c * c)) by (rewrite Hsq; ring);
          ring).
    rewrite E. split; nra.
Qed.

(** *** The angle of the pointer *)

(** The pointer at the angle [a] of a circle of any radius around the
    centre is seen at the angle [a]. *)
Lemma angleFor_polar (r a : R) :
  0 < r -> 0 <= a < 360 ->
  angleFor (r * sin (a * PI / 180) + ORBIT_RADIUS)
           (r * - cos (a * PI / 180) + ORBIT_RADIUS) = a.
Proof.
  intros Hr Ha. pose proof PI_RGT_0 as Hpi.
  rewrite angleFor_centered.
  set (theta := a * PI / 180).
  assert (Ht : 0 <= theta < 2 * PI) by (unfold theta; split; nra).
  replace (sin theta) with (sin (PI - theta)) by apply sin_PI_x.
  replace (- cos theta) with (cos (PI - theta))
    by (rewrite cos_minus, cos_PI, sin_PI; ring).
  rewrite atan2_polar by lra.
  replace (- (PI - theta) / (PI / 180) + 180) with a
    by (unfold theta; field; lra).
  now apply rem_small.
Qed.

Lemma atan2_scale (k y x : R) : 0 < k -> atan2 (k * y) (k * x) = atan2 y x.
Proof.
  intros Hk. unfold atan2.
  assert (Hq : x <> 0 -> k * y / (k * x) = y / x) by (intros; field; lra).
  destruct (Rlt_dec 0 (k * x)) as [H1 | H1];
    destruct (Rlt_dec 0 x) as [H2 | H2]; try (exfalso; nra).
  - now rewrite Hq by lra.
  - destruct (Rlt_dec (k * x) 0) as [H3 | H3];
      destruct (Rlt_dec x 0) as [H4 | H4]; try (exfalso; nra).
    + rewrite Hq by lra.
      destruct (Rle_dec 0 (k * y)) as [H5 | H5];
        destruct (Rle_dec 0 y) as [H6 | H6]; try (exfalso; nra); reflexivity.
    + destruct (Rlt_dec 0 (k * y)) as [H5 | H5];
        destruct (Rlt_dec 0 y) as [H6 | H6]; try (exfalso; nra);
        [ reflexivity | ].
      destruct (Rlt_dec (k * y) 0) as [H7 | H7];
        destruct (Rlt_dec y 0) as [H8 | H8]; try (exfalso; nra); reflexivity.
Qed.

(** X5.  The angle computed from the pointer depends on the direction of
    the pointer from the centre of the circle only, not on its distance:
    a pointer at the angle [a] of a circle of any radius [r] around the
    centre gives [a], and moving the pointer along the ray from the centre
    does not change the angle.  Straight up, right, down and left of the
    centre are 0, 90, 180 and 270 degrees. *)
Theorem pointer_angle_is_direction (r : R) :
  0 < r ->
  (forall a : R,
      0 <= a < 360 ->
      angleFor (r * sin (a * PI / 180) + ORBIT_RADIUS)
               (r * - cos (a * PI / 180) + ORBIT_RADIUS) = a) /\
  (forall dx dy : R,
      angleFor (r * dx + ORBIT_RADIUS) (r * dy + ORBIT_RADIUS)
      = angleFor (dx + ORBIT_RADIUS) (dy + ORBIT_RADIUS)) /\
  angleFor ORBIT_RADIUS (ORBIT_RADIUS - r) = 0 /\
  angleFor (ORBIT_RADIUS + r) ORBIT_RADIUS = 90 /\
  angleFor ORBIT_RADIUS (ORBIT_RADIUS + r) = 180 /\
  angleFor (ORBIT_RADIUS - r) ORBIT_RADIUS = 270.
Proof.
  intros Hr. pose proof PI_RGT_0 as Hpi.
  split; [ intros a Ha; now apply angleFor_polar | ].
  split.
  { intros dx dy. rewrite !angleFor_centered. now rewrite atan2_scale. }
  pose proof (angleFor_polar r 0 Hr ltac:(lra)) as H0.
  pose proof (angleFor_polar r 90 Hr ltac:(lra)) as H90.
  pose proof (angleFor_polar r 180 Hr ltac:(lra)) as H180.
  pose proof (angleFor_polar r 270 Hr ltac:(lra)) as H270.
  replace (0 * PI / 180) with 0 in H0 by lra.
  replace (90 * PI / 180) with (PI / 2) in H90 by lra.
  replace (180 * PI / 180) with PI in H180 by lra.
  replace (270 * PI / 180) with (3 * (PI / 2)) in H270 by lra.
  rewrite sin_0, cos_0 in H0. rewrite sin_PI2, cos_PI2 in H90.
  rewrite sin_PI, cos_PI in H180. rewrite sin_3PI2, cos_3PI2 in H270.
  repeat split.
  - etransitivity; [ | exact H0 ]. f_equal; ring.
  - etransitivity; [ | exact H90 ]. f_equal; ring.
  - etransitivity; [ | exact H180 ]. f_equal; ring.
  - etransitivity; [ | exact H270 ]. f_equal; ring.
Qed.

Lemma pointer_angle_is_direction_witness :
  angleFor (ORBIT_RADIUS + 5) ORBIT_RADIUS = 90.
Proof.
  assert (H : 0 < 5) by lra.
  destruct (pointer_angle_is_direction 5 H) as (_ & _ & _ & E & _).
  exact E.
Defined.

(** X6.  A pointer exactly at the centre of the circle has no direction:
    [atan2(0, 0)] is 0, so the handler takes the angle to be 180, and a
    move to the centre while dragging turns the light yellow. *)
Theorem pointer_at_centre (w : World) :
  mdown w = true ->
  let w' := step w (MouseMove (fst (elPos w) + ORBIT_RADIUS)
                              (snd (elPos w) + ORBIT_RADIUS)) in
  angleFor ORBIT_RADIUS ORBIT_RADIUS = 180 /\
  deg w' = 180 /\
  lightColor w' = 0xffff00%Z /\
  circle_background (ui w') = "yellow"%string.
Proof.
  intros Hm. pose proof PI_RGT_0 as Hpi.
  assert (E : angleFor ORBIT_RADIUS ORBIT_RADIUS = 180).
  { unfold angleFor.
    replace (ORBIT_RADIUS - ORBIT_RADIUS) with 0 by ring.
    unfold atan2.
    destruct (Rlt_dec 0 0) as [H | _]; [ lra | ].
    replace (- 0 / (PI / 180) + 180) with 180 by (field; lra).
    apply rem_small. lra. }
  assert (C : angleColors 180 = mkColors 0xffff00 "yellow" "yellow")
    by (unfold angleColors; cmp_cases; reflexivity).
  simpl. unfold onMouseMove. rewrite Hm. simpl.
  replace (fst (elPos w) + ORBIT_RADIUS - fst (elPos w)) with ORBIT_RADIUS by ring.
  replace (snd (elPos w) + ORBIT_RADIUS - snd (elPos w)) with ORBIT_RADIUS by ring.
  rewrite E, C. repeat split.
Qed.

Lemma pointer_at_centre_witness :
  deg (step (set_mdown (boot sample_page) true)
            (MouseMove (0 + ORBIT_RADIUS) (0 + ORBIT_RADIUS))) = 180.
Proof.
  exact (proj1 (proj2 (pointer_at_centre (set_mdown (boot sample_page) true)
                                         eq_refl))).
Defined.

(** *** How the events compose *)

(** X7.  While dragging, the state after two moves of the pointer is the
    state after the second move alone: a move leaves nothing behind that
    a later move does not overwrite. *)
Theorem last_move_wins (w : World) (x1 y1 x2 y2 : R) :
  mdown w = true ->
  step (step w (MouseMove x1 y1)) (MouseMove x2 y2) = step w (MouseMove x2 y2).
Proof.
  intros Hm. simpl. unfold onMouseMove. rewrite Hm. simpl. rewrite Hm.
  reflexivity.
Qed.

Lemma last_move_wins_witness :
  step (step (set_mdown (boot sample_page) true) (MouseMove 1 2)) (MouseMove 3 4)
  = step (set_mdown (boot sample_page) true) (MouseMove 3 4).
Proof.
  exact (last_move_wins (set_mdown (boot sample_page) true) 1 2 3 4 eq_refl).
Defined.

(** X8.  An input of the intensity slider and any event of the colour
    control can be handled in either order with the same result: the light
    is rebuilt from both shared variables each time, so neither the colour
    nor the intensity set by the other handler is lost. *)
Theorem input_commutes (w : World) (e : Event) (v : string) :
  not_input e ->
  step (step w e) (Input v) = step (step w (Input v)) e.
Proof.
  intros He. destruct e as [ | | | | x y | v' ]; try contradiction; simpl;
    destruct (oninput_wired w) eqn:Hw; simpl; try rewrite Hw; try reflexivity.
  - unfold onMouseMove. simpl. destruct (mdown w); simpl; now rewrite Hw.
  - unfold onMouseMove. simpl. destruct (mdown w); simpl; now rewrite Hw.
Qed.

Lemma input_commutes_witness :
  step (step (set_oninput (boot sample_page) true) Tick) (Input "4")
  = step (step (set_oninput (boot sample_page) true) (Input "4")) Tick.
Proof.
  exact (input_commutes (set_oninput (boot sample_page) true) Tick "4" I).
Defined.

(** X9.  The timer does not look at the drag state: pressing, releasing
    and leaving commute with a tick, so the wheel keeps turning during a
    drag, and a tick after a move of the pointer carries on from the angle
    of the pointer. *)
Theorem timer_ignores_drag (w : World) :
  step (step w MouseDown) Tick = step (step w Tick) MouseDown /\
  step (step w MouseUp) Tick = step (step w Tick) MouseUp /\
  step (step w MouseLeave) Tick = step (step w Tick) MouseLeave /\
  (forall b : bool, deg (step (set_mdown w b) Tick) = deg (step w Tick)) /\
  (forall x y : R,
      mdown w = true ->
      deg (step (step w (MouseMove x y)) Tick)
      = wrap (angleFor (x - fst (elPos w)) (y - snd (elPos w)) + 1) /\
      mdown (step (step w (MouseMove x y)) Tick) = true).
Proof.
  repeat (split; [ reflexivity | ]).
  intros x y Hm. simpl. unfold onMouseMove. rewrite Hm. simpl.
  pose proof (angleFor_range (x - fst (elPos w)) (y - snd (elPos w))) as Hr.
  split; [ apply rem_wrap; lra | exact Hm ].
Qed.

Lemma timer_ignores_drag_witness :
  deg (step (step (set_mdown (boot sample_page) true)
                  (MouseMove (0 + ORBIT_RADIUS) (0 + ORBIT_RADIUS))) Tick)
  = wrap (angleFor (0 + ORBIT_RADIUS - 0) (0 + ORBIT_RADIUS - 0) + 1).
Proof.
  destruct (timer_ignores_drag (set_mdown (boot sample_page) true))
    as (_ & _ & _ & _ & H).
  exact (proj1 (H (0 + ORBIT_RADIUS) (0 + ORBIT_RADIUS) eq_refl)).
Defined.

(** X10.  The intensity depends on the last input only: after two inputs
    of the intensity slider the state is the state after the second
    alone. *)
Theorem last_input_wins (w : World) (v1 v2 : string) :
  step (step w (Input v1)) (Input v2) = step w (Input v2).
Proof.
  simpl. destruct (oninput_wired w) eqn:Hw; simpl; rewrite Hw; reflexivity.
Qed.

(** *** The intensity as a function of the slider *)

(** X11.  For whole slider values between -1000 and 1000 the intensity
    never decreases when the value grows, it is at least 1 for every value
    from 0 on and at most 2 up to the value 10, and two different values
    give the same intensity only when they are 0 and 1: the lowest two
    positions of a slider that starts at 0 both give the intensity 1. *)
Theorem intensity_order (w : World) (s s' : string) (v v' : Z) :
  (-1000 <= v <= 1000)%Z -> (-1000 <= v' <= 1000)%Z ->
  parseIntZ s = Some v -> parseIntZ s' = Some v' ->
  exists r r' : R,
    lightIntensity (onInput w s) = Num r /\
    lightIntensity (onInput w s') = Num r' /\
    ((v <= v')%Z -> r <= r') /\
    (r = r' <-> v = v' \/ (v = 0%Z /\ v' = 1%Z) \/ (v = 1%Z /\ v' = 0%Z)) /\
    ((0 <= v)%Z -> 1 <= r) /\
    ((v <= 10)%Z -> r <= 2).
Proof.
  intros _ _ Hs Hs'.
  rewrite (onInput_Z w s v Hs), (onInput_Z w s' v' Hs').
  do 2 eexists. split; [ reflexivity | ]. split; [ reflexivity | ].
  assert (Hle : forall a b : Z, (a <= b)%Z -> IZR a <= IZR b)
    by (intros; now apply IZR_le).
  assert (Hne : forall a : Z, a <> 1%Z -> (a <= 0)%Z \/ (2 <= a)%Z) by lia.
  destruct (Z.eqb_spec v 1) as [-> | N]; destruct (Z.eqb_spec v' 1) as [-> | N'].
  - repeat split; try lra; intros; auto.
  - destruct (Hne v' N') as [L | G].
    + pose proof (Hle _ _ L) as HL. simpl in HL.
      split; [ intros; lia | ]. split; [ | split; intros; lra ].
      split.
      * intros E. assert (E0 : IZR v' = 0) by lra. apply eq_IZR in E0. lia.
      * intros [E | [[E _] | [_ ->]]]; [ lia | lia | simpl; lra ].
    + pose proof (Hle _ _ G) as HG. simpl in HG.
      split; [ intros; lra | ]. split; [ | split; intros; lra ].
      split; [ intros E; lra | intros [E | [[E _] | [_ E]]]; lia ].
  - destruct (Hne v N) as [L | G].
    + pose proof (Hle _ _ L) as HL. simpl in HL.
      split; [ intros; lra | ]. split.
      * split.
        -- intros E. assert (E0 : IZR v = 0) by lra. apply eq_IZR in E0. lia.
        -- intros [E | [[-> _] | [E _]]]; [ lia | simpl; lra | lia ].
      * split; intros H; [ | lra ].
        pose proof (Hle _ _ H) as H0. simpl in H0. lra.
    + pose proof (Hle _ _ G) as HG. simpl in HG.
      split; [ intros; lia | ]. split.
      * split; [ intros E; lra | intros [E | [[E _] | [E _]]]; lia ].
      * split; intros H; [ lra | ].
        pose proof (Hle _ _ H) as H0. simpl in H0. lra.
  - split; [ intros H; pose proof (Hle _ _ H); lra | ].
    split.
    + split.
      * intros E. left. apply eq_IZR. lra.
      * intros [-> | [[_ E] | [E _]]]; [ reflexivity | lia | lia ].
    + split; intros H; pose proof (Hle _ _ H) as H0; simpl in H0; lra.
Qed.

Lemma intensity_order_witness :
  exists r r' : R,
    lightIntensity (onInput (boot sample_page) "0") = Num r /\
    lightIntensity (onInput (boot sample_page) "1") = Num r' /\
    r = r'.
Proof.
  assert (B : (-1000 <= 0 <= 1000)%Z) by lia.
  assert (B' : (-1000 <= 1 <= 1000)%Z) by lia.
  destruct (intensity_order (boot sample_page) "0" "1" 0 1 B B' eq_refl eq_refl)
    as (r & r' & E & E' & _ & Heq & _).
  exists r, r'. split; [ exact E | ]. split; [ exact E' | ].
  apply Heq. right. left. split; reflexivity.
Defined.

(** *** What the handler reads of the text *)

Lemma digits_app (s t : string) :
  all_digits s = true -> no_leading_digit t = true ->
  forall acc : option Z, digits acc (s ++ t) = digits acc s.
Proof.
  intros Hs Ht. induction s as [| c s IH]; intros acc; simpl.
  - destruct t as [| c t]; [ reflexivity | ].
    simpl in Ht. simpl. destruct (digit_of c); [ discriminate Ht | reflexivity ].
  - simpl in Hs. destruct (digit_of c); [ | discriminate Hs ].
    apply IH, Hs.
Qed.

Lemma digits_nonneg (s : string) :
  forall acc : option Z,
    match acc with Some a => (0 <= a)%Z | None => True end ->
    match digits acc s with Some z => (0 <= z)%Z | None => True end.
Proof.
  induction s as [| c s IH]; intros acc Hacc; cbn [digits]; [ exact Hacc | ].
  destruct (digit_of c) as [d |] eqn:Hd; [ | exact Hacc ].
  assert (Hd0 : (0 <= d)%Z).
  { unfold digit_of in Hd.
    destruct (Nat.leb 48 (nat_of_ascii c) && Nat.leb (nat_of_ascii c) 57)%bool;
      [ | discriminate Hd ].
    injection Hd as <-. apply Nat2Z.is_nonneg. }
  apply IH. destruct acc; lia.
Qed.

Lemma parseIntZ_digit_head (c : ascii) (s : string) (d : Z) :
  digit_of c = Some d -> parseIntZ (String c s) = digits None (String c s).
Proof.
  intros Hd.
  destruct c as [[] [] [] [] [] [] [] []]; try discriminate Hd; reflexivity.
Qed.

(** X12.  The handler reads the leading whole number of the text and
    ignores what follows it: a text of digits followed by anything that
    does not start with a digit, such as a decimal point and a fraction,
    is handled as the digits alone, and the value read is not negative. *)
Theorem input_fraction_ignored (w : World) (s t : string) :
  s <> EmptyString -> all_digits s = true -> no_leading_digit t = true ->
  parseIntZ (s ++ t) = parseIntZ s /\
  (exists z : Z, parseIntZ s = Some z /\ (0 <= z)%Z) /\
  step w (Input (s ++ t)) = step w (Input s).
Proof.
  intros Hne Hs Ht.
  destruct s as [| c s]; [ now elim Hne | ].
  assert (Hc : exists d, digit_of c = Some d).
  { simpl in Hs. destruct (digit_of c) as [d |]; [ now exists d | discriminate Hs ]. }
  destruct Hc as [d Hd].
  assert (E : parseIntZ ((String c s) ++ t) = parseIntZ (String c s)).
  { simpl append. rewrite !(parseIntZ_digit_head c _ d Hd).
    change (String c (s ++ t)) with ((String c s) ++ t)%string.
    now apply digits_app. }
  split; [ exact E | ]. split.
  - rewrite (parseIntZ_digit_head c s d Hd).
    pose proof (digits_nonneg (String c s) None I) as Hn.
    cbn [digits] in Hn |- *. rewrite Hd in Hn |- *.
    destruct (digits_some s (10 * 0 + d)%Z) as [z Ez].
    rewrite Ez in Hn |- *. exists z. split; [ reflexivity | exact Hn ].
  - unfold step, onInput, parseInt. now rewrite E.
Qed.

Lemma input_fraction_ignored_witness :
  step (set_oninput (boot sample_page) true) (Input "5.9")
  = step (set_oninput (boot sample_page) true) (Input "5").
Proof.
  assert (H : "5"%string <> EmptyString) by discriminate.
  exact (proj2 (proj2 (input_fraction_ignored
                         (set_oninput (boot sample_page) true) "5" ".9"
                         H eq_refl eq_refl))).
Defined.

(** *** The cycle of the timer *)

(** Two states in step with the same angle that agree on what the angle
    does not determine are the same state. *)
Lemma in_sync_determined (w1 w2 : World) :
  in_sync w1 -> in_sync w2 ->
  light w1 = Some (mkLight (lightColor w1) (lightIntensity w1)) ->
  light w2 = Some (mkLight (lightColor w2) (lightIntensity w2)) ->
  deg w1 = deg w2 -> lightIntensity w1 = lightIntensity w2 ->
  mdown w1 = mdown w2 -> elPos w1 = elPos w2 ->
  sliderW w1 = sliderW w2 -> sliderH w1 = sliderH w2 ->
  oninput_wired w1 = oninput_wired w2 ->
  w1 = w2.
Proof.
  unfold in_sync.
  destruct w1 as [c1 i1 l1 d1 m1 p1 sw1 sh1 o1 [b1 s1 a1 x1 y1 r1]].
  destruct w2 as [c2 i2 l2 d2 m2 p2 sw2 sh2 o2 [b2 s2 a2 x2 y2 r2]].
  simpl.
  intros (-> & -> & -> & -> & -> & -> & ->) (-> & -> & -> & -> & -> & -> & ->).
  intros -> -> -> -> -> -> -> -> ->. reflexivity.
Qed.

Lemma ticks_frame (n : nat) :
  forall w : World,
    lightIntensity (run w (repeat Tick n)) = lightIntensity w /\
    mdown (run w (repeat Tick n)) = mdown w /\
    elPos (run w (repeat Tick n)) = elPos w /\
    sliderW (run w (repeat Tick n)) = sliderW w /\
    sliderH (run w (repeat Tick n)) = sliderH w /\
    oninput_wired (run w (repeat Tick n)) = oninput_wired w.
Proof.
  induction n as [| n IH]; intros w; [ repeat split | ].
  rewrite run_ticks_succ.
  destruct (IH (onTick w)) as (-> & -> & -> & -> & -> & ->). repeat split.
Qed.

Lemma deg_whole_step (w : World) (e : Event) :
  not_move e ->
  (exists z : Z, deg w = IZR z /\ (0 <= z < 360)%Z) ->
  exists z : Z, deg (step w e) = IZR z /\ (0 <= z < 360)%Z.
Proof.
  intros He (z & Hz & Hb).
  destruct e as [ | | | | x y | v ]; try contradiction; simpl;
    try (exists z; split; assumption).
  - exists ((z + 1) mod 360)%Z. split.
    + assert (Hr : 0 <= IZR z <= 359)
        by (split; [ apply (IZR_le 0) | apply (IZR_le z 359) ]; lia).
      rewrite Hz, rem_wrap by lra. now apply wrap_whole.
    + apply Z.mod_pos_bound. lia.
  - destruct (oninput_wired w); exists z; split; assumption.
Qed.

Lemma deg_whole_run (es : list Event) :
  forall w : World,
    Forall not_move es ->
    (exists z : Z, deg w = IZR z /\ (0 <= z < 360)%Z) ->
    exists z : Z, deg (run w es) = IZR z /\ (0 <= z < 360)%Z.
Proof.
  induction es as [| e es IH]; intros w Hes Hw; [ exact Hw | ].
  inversion Hes as [| ? ? He Hrest]; subst.
  simpl. apply IH; [ exact Hrest | now apply deg_whole_step ].
Qed.

(** X13.  From every state the program reaches in which the angle is a
    whole number, as it is as long as no move of the pointer has been
    handled, 360 ticks of the timer with no other event in between bring
    back the whole state, not only the angle: the colours, the light, the
    angle shown and the place of the slider are again what they were. *)
Theorem full_turn_restores_state (pg : Page) (w : World) (es : list Event) :
  main pg = Some w ->
  (forall z : Z,
      deg (run w es) = IZR z ->
      run (run w es) (repeat Tick 360) = run w es) /\
  (Forall not_move es ->
   (exists z : Z, deg (run w es) = IZR z /\ (0 <= z < 360)%Z) /\
   run (run w es) (repeat Tick 360) = run w es).
Proof.
  intros Hm.
  pose proof (in_sync_run es w (in_sync_main pg w Hm)) as Hs.
  pose proof (light_built_run es w (light_built_main pg w Hm)) as Hl.
  assert (Hr : 0 <= deg (run w es) < 360)
    by (apply deg_run_range; rewrite (deg_main pg w Hm); lra).
  assert (Hturn : run (run w es) (repeat Tick 360) = run w es).
  { set (w' := run w es) in *.
    destruct (ticks_frame 360 w') as (E1 & E2 & E3 & E4 & E5 & E6).
    apply in_sync_determined; try assumption.
    - now apply in_sync_run.
    - now apply light_built_run.
    - rewrite deg_run_ticks by (auto; lia).
      replace (INR 360) with 360 by (rewrite INR_IZR_INZ; reflexivity).
      unfold wrap. destruct (Rlt_dec (deg w' + 360) 360); lra. }
  split; [ intros z _; exact Hturn | ].
  intros Hes. split; [ | exact Hturn ].
  apply deg_whole_run; [ exact Hes | ].
  exists 0%Z. split; [ apply (deg_main pg w Hm) | lia ].
Qed.

Lemma full_turn_restores_state_witness :
  exists w : World,
    main sample_page = Some w /\
    run (run w [Tick; MouseDown; Input "3"; Tick]) (repeat Tick 360)
    = run w [Tick; MouseDown; Input "3"; Tick].
Proof.
  eexists. split; [ reflexivity | ].
  refine (proj2 (proj2 (full_turn_restores_state sample_page _ _ eq_refl) _)).
  repeat constructor.
Defined.

Lemma run_snoc (w : World) (es : list Event) (e : Event) :
  run w (es ++ [e]) = step (run w es) e.
Proof. unfold run. now rewrite fold_left_app. Qed.

Lemma repeat_snoc (n : nat) : repeat Tick (S n) = repeat Tick n ++ [Tick].
Proof.
  induction n as [| n IH]; [ reflexivity | ].
  simpl. f_equal. exact IH.
Qed.

Lemma deg_ticks_from_0 (n : nat) :
  forall w : World,
    deg w = 0 ->
    deg (run w (repeat Tick n)) = IZR (Z.of_nat n mod 360).
Proof.
  intros w Hw. induction n as [| n IH]; [ simpl; exact Hw | ].
  rewrite repeat_snoc, run_snoc. simpl step. rewrite deg_onTick, IH.
  assert (Hm : (0 <= Z.of_nat n mod 360 < 360)%Z)
    by (apply Z.mod_pos_bound; lia).
  set (m := (Z.of_nat n mod 360)%Z) in *.
  assert (Hb : 0 <= IZR m <= 359).
  { split; [ apply (IZR_le 0) | apply (IZR_le m 359) ]; lia. }
  rewrite rem_wrap by lra. unfold wrap.
  rewrite Nat2Z.inj_succ. unfold Z.succ.
  destruct (Rlt_dec (IZR m + 1) 360) as [L | G].
  - rewrite <- plus_IZR. f_equal.
    assert (m < 359)%Z by (apply lt_IZR; lra).
    unfold m in *. Z.to_euclidean_division_equations. lia.
  - assert (E : m = 359%Z).
    { assert (358 < m)%Z by (apply lt_IZR; lra). lia. }
    rewrite E. replace (359 + 1 - 360) with (IZR 0) by lra. f_equal.
    unfold m in *. Z.to_euclidean_division_equations. lia.
Qed.

Lemma band_of_whole_angle (m : Z) :
  (0 <= m < 360)%Z ->
  colorHex (angleColors (IZR m)) = nth (Z.to_nat (m / 40)) band_colors 0%Z.
Proof.
  intros Hm.
  assert (Hq : (0 <= m / 40 <= 8)%Z /\ (40 * (m / 40) <= m < 40 * (m / 40) + 40)%Z)
    by (Z.to_euclidean_division_equations; lia).
  destruct Hq as [Hq [Hlo Hhi]].
  set (q := (m / 40)%Z) in *.
  assert (Hb : IZR (40 * q) <= IZR m < IZR (40 * q + 40))
    by (split; [ now apply IZR_le | now apply IZR_lt ]).
  assert (Hcase : q = 0%Z \/ q = 1%Z \/ q = 2%Z \/ q = 3%Z \/ q = 4%Z \/
                  q = 5%Z \/ q = 6%Z \/ q = 7%Z \/ q = 8%Z) by lia.
  clearbody q.
  repeat (destruct Hcase as [-> | Hcase];
          [ simpl in Hb; unfold angleColors; cmp_cases; reflexivity | ]).
  subst q. simpl in Hb. unfold angleColors. cmp_cases. reflexivity.
Qed.

(** X14.  Counted from the start of the program, with no pointer event in
    between, the timer shows the angle [n mod 360] after [n] ticks and
    the light has the colour of the band number [(n mod 360) / 40] of the
    table: every band lasts 40 ticks, and the brown light of the two
    bands from 240 to 320 lasts 80. *)
Theorem colour_schedule (pg : Page) (w : World) (n : nat) :
  main pg = Some w ->
  deg (run w (repeat Tick n)) = IZR (Z.of_nat n mod 360) /\
  lightColor (run w (repeat Tick n))
  = nth (Z.to_nat ((Z.of_nat n mod 360) / 40)) band_colors 0%Z /\
  angle_value (ui (run w (repeat Tick n))) = (Z.of_nat n mod 360)%Z /\
  ((240 <= Z.of_nat n mod 360 < 320)%Z ->
   lightColor (run w (repeat Tick n)) = 0xa52a2a%Z).
Proof.
  intros Hm.
  pose proof (deg_ticks_from_0 n w (deg_main pg w Hm)) as Hd.
  pose proof (in_sync_run (repeat Tick n) w (in_sync_main pg w Hm))
    as (Hc & _ & _ & Ha & _).
  assert (Hb : (0 <= Z.of_nat n mod 360 < 360)%Z)
    by (apply Z.mod_pos_bound; lia).
  split; [ exact Hd | ].
  rewrite Hc, Ha, Hd.
  split; [ now apply band_of_whole_angle | ].
  split; [ apply ceil_IZR | ].
  intros Hbrown. rewrite band_of_whole_angle by exact Hb.
  set (m := (Z.of_nat n mod 360)%Z) in *.
  assert (Hq : (m / 40 = 6 \/ m / 40 = 7)%Z)
    by (Z.to_euclidean_division_equations; lia).
  destruct Hq as [-> | ->]; reflexivity.
Qed.

Lemma colour_schedule_witness :
  exists w : World,
    main sample_page = Some w /\
    lightColor (run w (repeat Tick 45)) = 0xadd8e6%Z.
Proof.
  eexists. split; [ reflexivity | ].
  exact (proj1 (proj2 (colour_schedule sample_page _ 45 eq_refl))).
Defined.

(** X15.  The mapping of angles to colours does not wrap around: it is
    white exactly for the angles below 40, the negative ones included, and
    for those above 360, and it is pink from 320 up to 360 inclusive. *)
Theorem white_outside_the_wheel (d : R) :
  (colorHex (angleColors d) = 0xFFFFFF%Z <-> d < 40 \/ 360 < d) /\
  (cssColor (angleColors d) = "white"%string <-> d < 40 \/ 360 < d) /\
  (colorHex (angleColors d) = 0xcc6699%Z <-> 320 <= d <= 360).
Proof.
  unfold angleColors. split; [ split | split; split ].
  - cmp_cases; simpl; intros H;
      first [ discriminate H | left; lra | right; lra ].
  - intros [H | H]; cmp_cases; reflexivity.
  - cmp_cases; simpl; intros H;
      first [ discriminate H | left; lra | right; lra ].
  - intros [H | H]; cmp_cases; reflexivity.
  - cmp_cases; simpl; intros H; first [ discriminate H | split; lra ].
  - intros H; cmp_cases; reflexivity.
Qed.

(** *** The scene *)

Lemma scene_remove_light (k : nat) (l l' : Kind) :
  (2 <= k)%nat ->
  scene_add (mkObject (S k) l')
            (scene_remove k [mkObject 0 PlaneMesh; mkObject 1 SphereMesh;
                             mkObject k l])
  = [mkObject 0 PlaneMesh; mkObject 1 SphereMesh; mkObject (S k) l'].
Proof.
  intros Hk. destruct k as [| [| k]]; [ lia | lia | ].
  simpl. now rewrite Nat.eqb_refl.
Qed.

Lemma step_keeps_light_state (w : World) (e : Event) :
  rebuilds w e = false ->
  lightColor (step w e) = lightColor w /\
  lightIntensity (step w e) = lightIntensity w.
Proof.
  destruct e as [ | | | | x y | v ]; simpl; intros H;
    try discriminate H; try (split; reflexivity).
  - unfold onMouseMove. rewrite H. split; reflexivity.
  - rewrite H. split; reflexivity.
Qed.

Lemma run_scene_cons (s : World * Scene) (e : Event) (es : list Event) :
  run_scene s (e :: es) = run_scene (step_scene s e) es.
Proof. reflexivity. Qed.

Lemma run_scene_shape (es : list Event) :
  forall (w : World) (g : Scene) (k : nat),
    (2 <= k)%nat ->
    children g
    = [mkObject 0 PlaneMesh; mkObject 1 SphereMesh;
       mkObject k (Ambient (mkLight (lightColor w) (lightIntensity w)))] ->
    lightRef g = Some k -> nextId g = S k ->
    fst (run_scene (w, g) es) = run w es /\
    children (snd (run_scene (w, g) es))
    = [mkObject 0 PlaneMesh; mkObject 1 SphereMesh;
       mkObject (k + count_rebuilds w es)
                (Ambient (mkLight (lightColor (run w es))
                                  (lightIntensity (run w es))))] /\
    lightRef (snd (run_scene (w, g) es)) = Some (k + count_rebuilds w es)%nat /\
    nextId (snd (run_scene (w, g) es)) = S (k + count_rebuilds w es).
Proof.
  induction es as [| e es IH]; intros w g k Hk Hc Hl Hn.
  - simpl. rewrite Nat.add_0_r. repeat split; assumption.
  - rewrite run_scene_cons. unfold step_scene. simpl fst. simpl snd.
    change (run w (e :: es)) with (run (step w e) es).
    cbn [count_rebuilds].
    destruct (rebuilds w e) eqn:Hr.
    + replace (k + (1 + count_rebuilds (step w e) es))%nat
        with (S k + count_rebuilds (step w e) es)%nat by lia.
      apply IH; [ lia | | simpl; now rewrite Hn | simpl; now rewrite Hn ].
      unfold updateLight_scene. rewrite Hl, Hc, Hn. cbn [children].
      now apply scene_remove_light.
    + destruct (step_keeps_light_state w e Hr) as [Ec Ei].
      cbn [Nat.add].
      apply IH; [ exact Hk | | exact Hl | exact Hn ].
      rewrite Ec, Ei. exact Hc.
Qed.

(** X16.  After [main] and after any events, the scene holds exactly the
    plane, the sphere and one ambient light, and that light has the current
    [lightColor] and [lightIntensity]: every rebuild takes the old light
    out before it adds the new one, so lights never pile up, and no cube is
    ever in the scene.  Each rebuild makes a new light object. *)
Theorem scene_has_one_light
  (pg : Page) (w : World) (g : Scene) (es : list Event) :
  main_scene pg = Some (w, g) ->
  let s := run_scene (w, g) es in
  let k := (3 + count_rebuilds w es)%nat in
  fst s = run w es /\
  children (snd s)
  = [mkObject 0 PlaneMesh; mkObject 1 SphereMesh;
     mkObject k (Ambient (mkLight (lightColor (run w es))
                                  (lightIntensity (run w es))))] /\
  lightRef (snd s) = Some k /\
  nextId (snd s) = S k /\
  (forall o : Object3D, In o (children (snd s)) -> kind o <> CubeMesh).
Proof.
  intros Hm. unfold main_scene in Hm.
  destruct (main pg) as [w0 |] eqn:Hmain; [ | discriminate Hm ].
  injection Hm as <- <-.
  assert (Hw : lightColor w0 = 0xFFFFFF%Z /\ lightIntensity w0 = Num 1).
  { revert Hmain. unfold main, initColorControl.
    destruct (circle_offset pg); [ | discriminate ]. intros [= <-].
    unfold initIntensityControl. destruct (has_intensity_slider pg);
      (split; [ simpl; unfold angleColors; cmp_cases; reflexivity | reflexivity ]). }
  destruct Hw as [Hc Hi].
  destruct (run_scene_shape es w0
              (updateLight_scene w0
                 (initLight_scene (boot pg)
                    (createSphere (createPlane empty_scene)))) 3)
    as (H1 & H2 & H3 & H4); try reflexivity; [ lia | ].
  cbv zeta. split; [ exact H1 | ]. split; [ exact H2 | ].
  split; [ exact H3 | ]. split; [ exact H4 | ].
  intros o Ho. rewrite H2 in Ho. simpl in Ho.
  destruct Ho as [<- | [<- | [<- | []]]]; discriminate.
Qed.

Lemma scene_has_one_light_witness :
  exists (w : World) (g : Scene),
    main_scene sample_page = Some (w, g) /\
    List.length (children (snd (run_scene (w, g) [Tick; Tick; Input "5"])))
    = 3%nat.
Proof.
  do 2 eexists. split; [ reflexivity | ].
  destruct (scene_has_one_light sample_page _ _ [Tick; Tick; Input "5"] eq_refl)
    as (_ & E & _).
  rewrite E. reflexivity.
Defined.

(** *** The render loop *)

Lemma resize_twice (c : Canvas) :
  resizeRendererToDisplaySize (fst (resizeRendererToDisplaySize c))
  = (fst (resizeRendererToDisplaySize c), false).
Proof.
  unfold resizeRendererToDisplaySize.
  destruct (negb (Z.eqb (width c) (clientWidth c))
            || negb (Z.eqb (height c) (clientHeight c)))%bool eqn:E; simpl.
  - now rewrite !Z.eqb_refl.
  - now rewrite E.
Qed.

(** X17.  [resizeRendererToDisplaySize] returns true exactly when the
    drawing buffer of the canvas differs in width or height from the size
    the canvas is displayed at; afterwards the two sizes agree, the
    displayed size is untouched, and a second call changes nothing and
    returns false. *)
Theorem resize_to_display_size (c : Canvas) :
  let c' := fst (resizeRendererToDisplaySize c) in
  (snd (resizeRendererToDisplaySize c) = false <->
   width c = clientWidth c /\ height c = clientHeight c) /\
  width c' = clientWidth c /\ height c' = clientHeight c /\
  clientWidth c' = clientWidth c /\ clientHeight c' = clientHeight c /\
  (snd (resizeRendererToDisplaySize c) = false -> c' = c) /\
  resizeRendererToDisplaySize c' = (c', false).
Proof.
  cbv zeta. split; [ | split; [ | split; [ | split; [ | split; [ | split ]]]]].
  - unfold resizeRendererToDisplaySize. simpl.
    destruct (Z.eqb_spec (width c) (clientWidth c));
      destruct (Z.eqb_spec (height c) (clientHeight c)); simpl;
      split; intros H; try discriminate H; try reflexivity;
      try (split; assumption); destruct H; contradiction.
  - unfold resizeRendererToDisplaySize. simpl.
    destruct (Z.eqb_spec (width c) (clientWidth c));
      destruct (Z.eqb_spec (height c) (clientHeight c)); simpl; congruence.
  - unfold resizeRendererToDisplaySize. simpl.
    destruct (Z.eqb_spec (width c) (clientWidth c));
      destruct (Z.eqb_spec (height c) (clientHeight c)); simpl; congruence.
  - unfold resizeRendererToDisplaySize. simpl.
    destruct (negb (Z.eqb (width c) (clientWidth c))
              || negb (Z.eqb (height c) (clientHeight c)))%bool; reflexivity.
  - unfold resizeRendererToDisplaySize. simpl.
    destruct (negb (Z.eqb (width c) (clientWidth c))
              || negb (Z.eqb (height c) (clientHeight c)))%bool; reflexivity.
  - unfold resizeRendererToDisplaySize. simpl.
    destruct (negb (Z.eqb (width c) (clientWidth c))
              || negb (Z.eqb (height c) (clientHeight c)))%bool;
      [ discriminate | reflexivity ].
  - apply resize_twice.
Qed.

Lemma resize_to_display_size_witness :
  fst (resizeRendererToDisplaySize (mkCanvas 640 480 640 480))
  = mkCanvas 640 480 640 480.
Proof.
  destruct (resize_to_display_size (mkCanvas 640 480 640 480))
    as (_ & _ & _ & _ & _ & H & _).
  exact (H eq_refl).
Defined.

Lemma resize_cases (c : Canvas) :
  (width c = clientWidth c /\ height c = clientHeight c) \/
  (width c <> clientWidth c \/ height c <> clientHeight c).
Proof.
  destruct (Z.eq_dec (width c) (clientWidth c));
    destruct (Z.eq_dec (height c) (clientHeight c)); auto.
Qed.

Lemma render_matched (c : Canvas) (a : quotient) :
  width c = clientWidth c -> height c = clientHeight c ->
  render (mkView c a) = mkView c a.
Proof.
  intros Ew Eh. unfold render, resizeRendererToDisplaySize. simpl.
  now rewrite Ew, Eh, !Z.eqb_refl.
Qed.

Lemma render_mismatch (c : Canvas) (a : quotient) :
  width c <> clientWidth c \/ height c <> clientHeight c ->
  render (mkView c a)
  = mkView (setSize c (clientWidth c) (clientHeight c))
           (divide (clientWidth c) (clientHeight c)).
Proof.
  intros Hn. unfold render, resizeRendererToDisplaySize. simpl.
  destruct (Z.eqb_spec (width c) (clientWidth c));
    destruct (Z.eqb_spec (height c) (clientHeight c)); simpl;
    try reflexivity.
  destruct Hn; contradiction.
Qed.

(** X18.  A frame of [render] leaves the drawing buffer at the displayed
    size, and a second frame with the same displayed size changes nothing.
    The aspect of the camera is set, to displayed width over displayed
    height, only in a frame that resizes: on a canvas whose buffer already
    has the displayed size the camera keeps the aspect 2 of [initThree]
    whatever the shape of the canvas, and a resize to the height 0 makes
    the aspect infinite or [NaN]. *)
Theorem render_settles (v : View) :
  let c := domElement v in
  render (render v) = render v /\
  width (domElement (render v)) = clientWidth c /\
  height (domElement (render v)) = clientHeight c /\
  (width c = clientWidth c /\ height c = clientHeight c -> render v = v) /\
  (width c <> clientWidth c \/ height c <> clientHeight c ->
   aspect (render v) = divide (clientWidth c) (clientHeight c) /\
   (clientHeight c <> 0%Z ->
    aspect (render v) = Quot (IZR (clientWidth c) / IZR (clientHeight c))) /\
   (clientHeight c = 0%Z -> forall r : R, aspect (render v) <> Quot r)) /\
  (width c = clientWidth c /\ height c = clientHeight c ->
   aspect (render (initView c)) = Quot 2).
Proof.
  destruct v as [c a]. cbv zeta. simpl domElement.
  destruct (resize_cases c) as [[Ew Eh] | Hn].
  - pose proof (render_matched c a Ew Eh) as E.
    pose proof (render_matched c (Quot 2) Ew Eh) as E2.
    rewrite E. simpl.
    split; [ exact E | ]. split; [ exact Ew | ]. split; [ exact Eh | ].
    split; [ reflexivity | ].
    split; [ intros [H | H]; contradiction | ].
    intros _. unfold initView. now rewrite E2.
  - pose proof (render_mismatch c a Hn) as E. rewrite E. simpl.
    split; [ now apply render_matched | ].
    split; [ reflexivity | ]. split; [ reflexivity | ].
    split; [ intros [H1 H2]; destruct Hn; contradiction | ].
    split; [ | intros [H1 H2]; destruct Hn; contradiction ].
    intros _. split; [ reflexivity | ]. unfold divide.
    split.
    + intros H0. destruct (Z.eqb_spec (clientHeight c) 0);
        [ contradiction | reflexivity ].
    + intros H0 r. rewrite H0. simpl.
      destruct (Z.eqb (clientWidth c) 0); discriminate.
Qed.

Lemma render_settles_witness :
  aspect (render (initView (mkCanvas 150 150 150 150))) = Quot 2 /\
  aspect (render (initView (mkCanvas 300 150 800 0))) = Infinity true.
Proof.
  destruct (render_settles (initView (mkCanvas 150 150 150 150)))
    as (_ & _ & _ & _ & _ & H).
  destruct (render_settles (initView (mkCanvas 300 150 800 0)))
    as (_ & _ & _ & _ & H' & _).
  split; [ exact (H (conj eq_refl eq_refl)) | ].
  assert (N : (300 <> 800)%Z) by discriminate.
  exact (proj1 (H' (or_introl N))).
Defined.

(** *** The slider and the angle *)

(** X19.  In every state the program reaches, the slider is drawn where
    the current angle puts it, up to the rounding to whole pixels: the
    angle at which the pointer sees the centre of the slider is within 2.4
    degrees of the current angle, modulo 360.  So a drag that starts
    exactly on the slider moves the angle by at most that much. *)
Theorem slider_shows_angle (pg : Page) (w : World) (es : list Event) :
  main pg = Some w ->
  let w' := run w es in
  (- (12 / 5) <= angleOfSlider w' - deg w' <= 12 / 5 \/
   360 - 12 / 5 <= angleOfSlider w' - deg w' \/
   angleOfSlider w' - deg w' <= - 360 + 12 / 5) /\
  (mdown w' = true ->
   deg (step w' (MouseMove (fst (elPos w') + fst (sliderCenter w'))
                           (snd (elPos w') + snd (sliderCenter w'))))
   = angleOfSlider w').
Proof.
  intros Hm w'.
  pose proof (in_sync_run es w (in_sync_main pg w Hm))
    as (_ & _ & _ & _ & _ & Hl & Ht).
  assert (Hr : 0 <= deg w' < 360)
    by (apply deg_run_range; rewrite (deg_main pg w Hm); lra).
  fold w' in Hl, Ht.
  assert (E : angleOfSlider w' = angleOfSlider (positionSlider w' (deg w'))).
  { unfold angleOfSlider. rewrite sliderCenter_positionSlider.
    unfold sliderCenter. rewrite Hl, Ht. simpl. f_equal; lra. }
  split.
  - rewrite E. now apply angleOfSlider_close.
  - intros Hd. unfold step, onMouseMove. rewrite Hd.
    change (deg (setLightAndUIFromAngle ?a ?d)) with d.
    cbv zeta. unfold angleOfSlider.
    replace (fst (elPos w') + fst (sliderCenter w') - fst (elPos w'))
      with (fst (sliderCenter w')) by ring.
    replace (snd (elPos w') + snd (sliderCenter w') - snd (elPos w'))
      with (snd (sliderCenter w')) by ring.
    reflexivity.
Qed.

Lemma slider_shows_angle_witness :
  exists w : World,
    main sample_page = Some w /\
    (- (12 / 5) <= angleOfSlider (run w [Tick; Tick]) - deg (run w [Tick; Tick])
     <= 12 / 5 \/
     360 - 12 / 5 <= angleOfSlider (run w [Tick; Tick]) - deg (run w [Tick; Tick]) \/
     angleOfSlider (run w [Tick; Tick]) - deg (run w [Tick; Tick])
     <= - 360 + 12 / 5).
Proof.
  eexists. split; [ reflexivity | ].
  exact (proj1 (slider_shows_angle sample_page _ [Tick; Tick] eq_refl)).
Defined.
